(** * Image upload toolkit: the reference matcher, the upload orchestration
      and the document rewriter of [src/uploader/imageTagProcessor.ts].

    The development is a shallow embedding of [ImageTagProcessor]:

    - JavaScript strings are lists of UTF-16 code units;
    - the three regular expressions of the file are terms of a small regex
      syntax, run by a backtracking matcher written in continuation-passing
      style after the ECMAScript specification (RepeatMatcher with its
      empty check, left-to-right alternatives, capture groups);
    - [String.prototype.matchAll], [replace] and [replaceAll] (with the
      [$]-patterns of GetSubstitution) are written out;
    - the host (Obsidian vault, editor, Node [path], the upload transport,
      [decodeURI]) is a record of oracles, and [process] produces the trace
      of host effects together with the state of the promise it returns. *)

From Stdlib Require Import NArith Ascii String Bool Lia Sorted.
From stdpp Require Import base list.

Local Open Scope nat_scope.

(** ** Strings *)

(** A UTF-16 code unit. *)
Definition cu := N.

(** A JavaScript string. *)
Definition jsstring := list cu.

(** The code units of an ASCII literal. *)
Definition js (s : string) : jsstring :=
  map N_of_ascii (list_ascii_of_string s).

Definition cu_eqb (a b : cu) : bool := N.eqb a b.

Fixpoint str_eqb (a b : jsstring) : bool :=
  match a, b with
  | [], [] => true
  | x :: a', y :: b' => cu_eqb x y && str_eqb a' b'
  | _, _ => false
  end.

(** [String.prototype.startsWith] (from position 0). *)
Fixpoint startsWith (s p : jsstring) {struct p} : bool :=
  match p, s with
  | [], _ => true
  | x :: p', y :: s' => cu_eqb x y && startsWith s' p'
  | _ :: _, [] => false
  end.

(** [String.prototype.endsWith]. *)
Definition endsWith (s p : jsstring) : bool :=
  (length p <=? length s) && str_eqb (drop (length s - length p) s) p.

(** ** Regular expressions *)

(** The fragment of the ECMAScript pattern syntax used by the three patterns
    of the file (no flags other than [g], so [.] excludes the four line
    terminators and [^] only holds at index 0). *)
Inductive regex : Type :=
| Empty                                   (* the empty alternative *)
| Char (c : cu)                           (* a literal or escaped character *)
| Dot                                     (* [.] *)
| AnyChar                                 (* [[\s\S]] *)
| AssertStart                             (* [^] *)
| Seq (a b : regex)
| Alt (a b : regex)
| Group (i : nat) (r : regex)             (* the i-th capturing group *)
| Repeat (min : nat) (max : option nat) (greedy : bool) (r : regex).

(** LF, CR, LS and PS. *)
Definition isLineTerminator (c : cu) : bool :=
  (N.eqb c 10 || N.eqb c 13 || N.eqb c 8232 || N.eqb c 8233)%N.

(** The matcher state: the end index reached so far, the input that remains
    from there, and the captures as (group, captured substring). *)
Record mstate : Type := MState {
  endIndex : nat;
  rest : jsstring;
  captures : list (nat * jsstring)
}.

Definition cont := mstate -> option mstate.

Definition advance (x : mstate) (t : jsstring) : mstate :=
  MState (S (endIndex x)) t (captures x).

Definition set_capture (i : nat) (s : jsstring) (y : mstate) : mstate :=
  MState (endIndex y) (rest y)
         ((i, s) :: List.filter (fun p => negb (Nat.eqb (fst p) i)) (captures y)).

(** The capturing groups inside a pattern. *)
Fixpoint groups_of (r : regex) : list nat :=
  match r with
  | Seq a b | Alt a b => groups_of a ++ groups_of b
  | Group i r => i :: groups_of r
  | Repeat _ _ _ r => groups_of r
  | _ => []
  end.

Definition mem_nat (i : nat) (l : list nat) : bool := existsb (Nat.eqb i) l.

(** RepeatMatcher step 4: the captures of the repeated atom are reset. *)
Definition clear_captures (gs : list nat) (x : mstate) : mstate :=
  MState (endIndex x) (rest x)
         (List.filter (fun p => negb (mem_nat (fst p) gs)) (captures x)).

(** RepeatMatcher(m, min, max, greedy, x, c).  [fuel] bounds the number of
    iterations; an iteration that does not count towards [min] must consume
    input, so [min + length (rest x) + 1] is always enough. *)
Fixpoint repeatMatcher (fuel : nat) (m : mstate -> cont -> option mstate)
    (gs : list nat) (min : nat) (max : option nat) (greedy : bool)
    (x : mstate) (c : cont) {struct fuel} : option mstate :=
  match fuel with
  | 0 => None
  | S fuel' =>
    match max with
    | Some 0 => c x
    | _ =>
      let d : cont := fun y =>
        if Nat.eqb min 0 && Nat.eqb (endIndex y) (endIndex x) then None
        else repeatMatcher fuel' m gs (pred min) (option_map pred max) greedy y c in
      let xr := clear_captures gs x in
      if negb (Nat.eqb min 0) then m xr d
      else if greedy then
        match m xr d with
        | Some z => Some z
        | None => c x
        end
      else
        match c x with
        | Some z => Some z
        | None => m xr d
        end
    end
  end.

(** The matcher of a pattern, in continuation-passing style. *)
Fixpoint matcher (r : regex) (x : mstate) (c : cont) {struct r} : option mstate :=
  match r with
  | Empty => c x
  | Char ch =>
    match rest x with
    | a :: t => if cu_eqb a ch then c (advance x t) else None
    | [] => None
    end
  | Dot =>
    match rest x with
    | a :: t => if isLineTerminator a then None else c (advance x t)
    | [] => None
    end
  | AnyChar =>
    match rest x with
    | _ :: t => c (advance x t)
    | [] => None
    end
  | AssertStart => if Nat.eqb (endIndex x) 0 then c x else None
  | Seq a b => matcher a x (fun y => matcher b y c)
  | Alt a b =>
    match matcher a x c with
    | Some z => Some z
    | None => matcher b x c
    end
  | Group i r' =>
    matcher r' x (fun y =>
      c (set_capture i (take (endIndex y - endIndex x) (rest x)) y))
  | Repeat min max greedy r' =>
    repeatMatcher (min + length (rest x) + 1) (matcher r') (groups_of r')
                  min max greedy x c
  end.

(** A successful match, as the match object of [exec]: [index], element 0
    and the captured groups. *)
Record jsmatch : Type := JsMatch {
  index : nat;
  whole : jsstring;
  groups : list (nat * jsstring)
}.

(** The i-th element of a match object; a group that did not take part is
    [undefined], read here as [None]. *)
Definition group (m : jsmatch) (i : nat) : option jsstring :=
  match i with
  | 0 => Some (whole m)
  | _ => snd <$> find (fun p => Nat.eqb (fst p) i) (groups m)
  end.

(** RegExpBuiltinExec without the sticky flag: the first index at or after
    [i] where the pattern matches; [l] is the input from index [i] on. *)
Fixpoint search (r : regex) (i : nat) (l : jsstring) : option jsmatch :=
  match matcher r (MState i l []) Some with
  | Some y => Some (JsMatch i (take (endIndex y - i) l) (captures y))
  | None =>
    match l with
    | [] => None
    | _ :: l' => search r (S i) l'
    end
  end.

(** The iterator of [matchAll] on a global pattern: [lastIndex] moves to
    the end of each match, one further after an empty match, and the
    iteration ends when no match is found. *)
Fixpoint matchAll_from (fuel : nat) (r : regex) (i : nat) (l : jsstring)
  : list jsmatch :=
  match fuel with
  | 0 => []
  | S fuel' =>
    match search r i l with
    | None => []
    | Some m =>
      let e := index m + length (whole m) in
      let next := if Nat.eqb (length (whole m)) 0 then S e else e in
      m :: (if length l <? next - i then []
            else matchAll_from fuel' r next (drop (next - i) l))
    end
  end.

Definition matchAll (r : regex) (s : jsstring) : list jsmatch :=
  matchAll_from (S (S (length s))) r 0 s.

(** ** The patterns of the file *)

Definition chr (s : string) : regex :=
  match js s with
  | c :: _ => Char c
  | [] => Empty
  end.

Fixpoint cat (rs : list regex) : regex :=
  match rs with
  | [] => Empty
  | [r] => r
  | r :: rs' => Seq r (cat rs')
  end.

(** A literal word. *)
Definition lit (s : string) : regex := cat (map Char (js s)).

(** [(png|jpg|jpeg|gif|svg|webp|excalidraw)], without its parentheses. *)
Definition EXTENSIONS : regex :=
  Alt (lit "png") (Alt (lit "jpg") (Alt (lit "jpeg") (Alt (lit "gif")
  (Alt (lit "svg") (Alt (lit "webp") (lit "excalidraw")))))).

(** The inline-markup pattern: [!], [\[], group 1 = greedy [.]-star, [\]],
    [\(], group 2 = lazy [.]-star, [\.], group 3 = the extensions, and [\)];
    flag [g]. *)
Definition MD_REGEX : regex :=
  cat [ chr "!"; chr "[";
        Group 1 (Repeat 0 None true Dot);
        chr "]"; chr "(";
        Group 2 (cat [ Repeat 0 None false Dot; chr "."; Group 3 EXTENSIONS ]);
        chr ")" ].

(** The bracketed-wiki pattern: [!\[\[], group 1 = lazy [.]-star, [\.],
    group 2 = the extensions; then group 3, optional (greedy [?]), whose two
    alternatives are the empty pattern and a greedy [.]-star (the bar inside
    group 3 is the alternation operator, not a literal bar); then [\]\]];
    flag [g]. *)
Definition WIKI_REGEX : regex :=
  cat [ chr "!"; chr "["; chr "[";
        Group 1 (cat [ Repeat 0 None false Dot; chr "."; Group 2 EXTENSIONS ]);
        Repeat 0 (Some 1) true (Group 3 (Alt Empty (Repeat 0 None true Dot)));
        chr "]"; chr "]" ].

(** The header pattern: [^---], a lazy [+] over [[\s\S]], [---] and a line
    feed; no flag. *)
Definition PROPERTIES_REGEX : regex :=
  cat [ AssertStart; chr "-"; chr "-"; chr "-";
        Repeat 1 None false AnyChar;
        chr "-"; chr "-"; chr "-"; Char 10%N ].

(** ** [replace] and [replaceAll] *)

Definition DOLLAR : cu := 36%N.

(** GetSubstitution for a string search value: there are no captures, so of
    the [$]-patterns only [$$], [$&], [$`] and [$'] are replaced; any other
    [$] stands for itself. *)
Fixpoint getSubstitution (matched before after template : jsstring) : jsstring :=
  match template with
  | [] => []
  | c :: t =>
    if cu_eqb c DOLLAR then
      match t with
      | c2 :: t2 =>
        if cu_eqb c2 DOLLAR then DOLLAR :: getSubstitution matched before after t2
        else if cu_eqb c2 38%N then matched ++ getSubstitution matched before after t2
        else if cu_eqb c2 96%N then before ++ getSubstitution matched before after t2
        else if cu_eqb c2 39%N then after ++ getSubstitution matched before after t2
        else c :: getSubstitution matched before after t
      | [] => [c]
      end
    else c :: getSubstitution matched before after t
  end.

(** The scan of [replaceAll] for a non-empty search string: [l] is [whole]
    from position [p]; [skip] counts the code units of the current
    occurrence still to be dropped. *)
Fixpoint replaceAll_scan (whole search template : jsstring) (p : nat)
    (l : jsstring) (skip : nat) : jsstring :=
  match l with
  | [] => []
  | c :: l' =>
    match skip with
    | S k => replaceAll_scan whole search template (S p) l' k
    | 0 =>
      if startsWith l search then
        getSubstitution search (take p whole) (drop (p + length search) whole)
                        template
        ++ replaceAll_scan whole search template (S p) l' (length search - 1)
      else c :: replaceAll_scan whole search template (S p) l' 0
    end
  end.

(** With the empty search string every position matches, the end included. *)
Fixpoint replaceAll_empty (whole template : jsstring) (p : nat) (l : jsstring)
  : jsstring :=
  getSubstitution [] (take p whole) (drop p whole) template
  ++ match l with
     | [] => []
     | c :: l' => c :: replaceAll_empty whole template (S p) l'
     end.

(** [s.replaceAll(search, template)] with two strings. *)
Definition replaceAll (s search template : jsstring) : jsstring :=
  match search with
  | [] => replaceAll_empty s template 0 s
  | _ => replaceAll_scan s search template 0 s 0
  end.

(** [s.replace(r, "")] for a pattern without the [g] flag: the first match
    is cut out (the substitution of the empty template is empty). *)
Definition replace_by_empty (r : regex) (s : jsstring) : jsstring :=
  match search r 0 s with
  | Some m => take (index m) s ++ drop (index m + length (whole m)) s
  | None => s
  end.

(** ** The data model *)

Record Image : Type := MkImage {
  name : jsstring;
  path : jsstring;
  fullPath : jsstring;
  url : jsstring;
  source : jsstring
}.

(** The fields of [PublishSettings] that the processor reads. *)
Record PublishSettings : Type := MkSettings {
  attachmentLocation : jsstring;
  imageAltText : bool;
  deleteAttachments : bool;
  replaceOriginalDoc : bool;
  ignoreProperties : bool
}.

Definition ACTION_PUBLISH : jsstring := js "PUBLISH".

Inductive jserror : Type :=
| URIError                       (* thrown by [decodeURI] *)
| Error (message : jsstring).    (* [new Error(message)] *)

Inductive result (A : Type) : Type :=
| Ok (a : A)
| Throw (e : jserror).
Arguments Ok {A} a.
Arguments Throw {A} e.

(** What the upload transport answers. *)
Inductive uploadResult : Type :=
| Uploaded (imgUrl : jsstring)
| Failed (message : jsstring).

(** The collaborators of the processor.  None of them is code of this file:
    the vault and the editor of the host application, Node's [path], the
    injected uploader and the built-in [decodeURI]. *)
Record Host : Type := MkHost {
  (* the text of the active markdown editor, if there is one *)
  activeDoc : option jsstring;
  getBasePath : jsstring;
  normalizePath : jsstring -> jsstring;
  getAvailablePathForAttachment : jsstring -> jsstring;
  (* [getAbstractFileByPath(p) != null] *)
  fileExists : jsstring -> bool;
  readBinary : jsstring -> list N;
  (* [path.dirname] and [path.parse(p).name] *)
  dirname : jsstring -> jsstring;
  parse_name : jsstring -> jsstring;
  (* [upload(new File([buf], name), path)] settles with a URL or rejects *)
  upload : jsstring -> list N -> jsstring -> uploadResult;
  (* [decodeURI] returns or throws URIError *)
  decodeURI : jsstring -> option jsstring
}.

(** The host effects a run can have, in the order they happen. *)
Inductive event : Type :=
| EResolve (p : jsstring)            (* getAvailablePathForAttachment(p) *)
| EExists (p : jsstring)             (* getAbstractFileByPath(p) *)
| EReadBinary (p : jsstring)
| EUpload (name : jsstring) (buf : list N) (p : jsstring)
| ENotice (message : jsstring)
| ELog (message : jsstring)
| EDelete (p : jsstring)             (* vault.delete of the file at p *)
| ESetValue (text : jsstring)        (* editor.setValue *)
| EClipboard (text : jsstring).      (* navigator.clipboard.writeText *)

(** ** [getImageLists] *)

(** An element of a match object that is used as a string. Groups 1 and 2
    are outside every quantifier and alternative of both patterns, so they
    take part in every match. *)
Definition group_str (m : jsmatch) (i : nat) : jsstring :=
  default [] (group m i).

(** The body of the first loop. *)
Definition wikiImage (s : PublishSettings) (m : jsmatch) : Image :=
  let name := group_str m 1 in
  let path_name :=
    if endsWith name (js ".excalidraw") then name ++ js ".png" else name in
  {| name := name;
     path := attachmentLocation s ++ js "/" ++ path_name;
     source := whole m;
     url := [];
     fullPath := [] |}.

Definition isRemote (p : jsstring) : bool :=
  startsWith p (js "http://") || startsWith p (js "https://").

(** The second loop: remote paths are skipped, the others are decoded. *)
Fixpoint mdImages (h : Host) (ms : list jsmatch) : result (list Image) :=
  match ms with
  | [] => Ok []
  | m :: ms' =>
    if isRemote (group_str m 2) then mdImages h ms'
    else
      match decodeURI h (group_str m 2) with
      | None => Throw URIError
      | Some decodedPath =>
        match mdImages h ms' with
        | Ok images =>
          Ok ({| name := decodedPath;
                 path := decodedPath;
                 source := whole m;
                 url := [];
                 fullPath := [] |} :: images)
        | Throw e => Throw e
        end
      end
  end.

Definition getImageLists (h : Host) (s : PublishSettings) (value : jsstring)
  : result (list Image) :=
  let wikiMatches := matchAll WIKI_REGEX value in
  let mdMatches := matchAll MD_REGEX value in
  match mdImages h mdMatches with
  | Ok images => Ok (map (wikiImage s) wikiMatches ++ images)
  | Throw e => Throw e
  end.

(** ** [process] *)

(** The state of a promise. *)
Inductive promiseState : Type :=
| Pending
| Fulfilled
| Rejected (e : jserror).

(** What a run of [process] does: the host effects, and the state in which
    the promise it returns ends up ([Pending]: it never settles). *)
Record outcome : Type := MkOutcome {
  events : list event;
  settled : promiseState
}.

(** Lines 52-55: the image with its [fullPath] assigned. *)
Definition resolved (h : Host) (image : Image) : Image :=
  let filePath := getAvailablePathForAttachment h (normalizePath h (path image)) in
  {| name := name image;
     path := path image;
     fullPath := dirname h filePath ++ js "/" ++ name image;
     url := url image;
     source := source image |}.

(** The test of line 56, negated: the file is there. *)
Definition located (h : Host) (image : Image) : bool :=
  fileExists h (normalizePath h (fullPath (resolved h image))).

Definition lookupEvents (h : Host) (image : Image) : list event :=
  [ EResolve (normalizePath h (path image));
    EExists (normalizePath h (fullPath (resolved h image))) ].

(** One turn of the loop for a file that is there: it is read and its
    upload is started. *)
Definition submitEvents (h : Host) (image : Image) : list event :=
  let r := resolved h image in
  lookupEvents h image ++
  [ EReadBinary (fullPath r);
    EUpload (name r) (readBinary h (fullPath r))
            (getBasePath h ++ js "/" ++ fullPath r) ].

(** The turn for a file that is not there, after which the loop is left. *)
Definition missEvents (h : Host) (image : Image) : list event :=
  let r := resolved h image in
  lookupEvents h image ++
  [ ENotice (js "Can NOT locate " ++ name r ++ js " with " ++ fullPath r
             ++ js ", please check image path or attachment option in plugin setting!");
    ELog (normalizePath h (fullPath r) ++ js " not exist") ].

(** The loop of lines 51-89: its effects and the images whose upload was
    started, in the order of the [promises] array. *)
Fixpoint resolveAll (h : Host) (images : list Image) : list event * list Image :=
  match images with
  | [] => ([], [])
  | image :: more =>
    if located h image then
      let '(evs, submitted) := resolveAll h more in
      (submitEvents h image ++ evs, resolved h image :: submitted)
    else (missEvents h image, [])
  end.

(** The answer of the transport to the upload of a submitted image. *)
Definition uploadOf (h : Host) (image : Image) : uploadResult :=
  upload h (name image) (readBinary h (fullPath image))
         (getBasePath h ++ js "/" ++ fullPath image).

Definition withUrl (image : Image) (imgUrl : jsstring) : Image :=
  {| name := name image;
     path := path image;
     fullPath := fullPath image;
     url := imgUrl;
     source := source image |}.

(** The [promises] array: [None] is a pending promise, [Some image] one
    resolved with [image]. *)
Abbreviation promises := (list (option Image)).

(** The upload of the i-th submitted image settles (lines 76-86): on
    success the url is stored in the image and the i-th promise is resolved
    with it; on failure a notice is shown and the promise stays pending. *)
Definition settleOne (h : Host) (submitted : list Image)
    (st : promises * list event) (i : nat) : promises * list event :=
  match submitted !! i with
  | None => st
  | Some image =>
    match uploadOf h image with
    | Uploaded imgUrl => (<[i := Some (withUrl image imgUrl)]> st.1, st.2)
    | Failed message =>
      (st.1,
       st.2 ++ [ENotice (js "Upload " ++ path image
                         ++ js " failed, remote server returned an error: "
                         ++ message)])
    end
  end.

(** The uploads settle in the order of [schedule], a list of positions in
    the [promises] array; an upload that is not listed never settles. *)
Definition settleAll (h : Host) (submitted : list Image) (schedule : list nat)
  : promises * list event :=
  foldl (settleOne h submitted) (replicate (length submitted) None, []) schedule.

(** [Promise.all]: resolved once every promise of the array is, with the
    values in the order of the array. *)
Fixpoint promiseAll (ps : promises) : option (list Image) :=
  match ps with
  | [] => Some []
  | None :: _ => None
  | Some v :: ps' =>
    match promiseAll ps' with
    | Some vs => Some (v :: vs)
    | None => None
    end
  end.

Definition SPACE : cu := 32%N.

(** Lines 96-101. *)
Definition altTextOf (h : Host) (s : PublishSettings) (image : Image) : jsstring :=
  if imageAltText s then
    replaceAll (replaceAll (parse_name h (name image)) (js "-") [SPACE])
               (js "_") [SPACE]
  else [].

(** The replacement string of line 103. *)
Definition markdownTag (altText imgUrl : jsstring) : jsstring :=
  js "![" ++ altText ++ js "](" ++ imgUrl ++ js ")".

(** Line 103. *)
Definition substitute (h : Host) (s : PublishSettings) (value : jsstring)
    (image : Image) : jsstring :=
  replaceAll value (source image) (markdownTag (altTextOf h s image) (url image)).

(** The loop of lines 95-109: the text after each image in turn, and the
    deletions. *)
Fixpoint rewrite (h : Host) (s : PublishSettings) (value : jsstring)
    (images : list Image) : jsstring * list event :=
  match images with
  | [] => (value, [])
  | image :: more =>
    let '(value', evs) := rewrite h s (substitute h s value image) more in
    (value',
     (if deleteAttachments s then [EDelete (fullPath image)] else []) ++ evs)
  end.

(** Lines 116-124. *)
Definition dispatch (action value : jsstring) : outcome :=
  if str_eqb action ACTION_PUBLISH then
    {| events := [EClipboard value; ENotice (js "Copied to clipboard")];
       settled := Fulfilled |}
  else
    {| events := []; settled := Rejected (Error (js "invalid action!")) |}.

(** The callback of [Promise.all(promises).then], lines 93-125. *)
Definition rewriter (h : Host) (s : PublishSettings) (action value : jsstring)
    (images : list Image) : outcome :=
  let '(value1, evs) := rewrite h s value images in
  let written :=
    if replaceOriginalDoc s then
      match activeDoc h with
      | Some _ => [ESetValue value1]
      | None => []
      end
    else [] in
  let value2 :=
    if ignoreProperties s then replace_by_empty PROPERTIES_REGEX value1
    else value1 in
  let o := dispatch action value2 in
  {| events := evs ++ written ++ events o; settled := settled o |}.

(** [getValue]. *)
Definition getValue (h : Host) : jsstring := default [] (activeDoc h).

(** [process(action)], for the order [schedule] in which the uploads
    settle.  The effects of the settling uploads are listed after those of
    the loop. *)
Definition process (h : Host) (s : PublishSettings) (schedule : list nat)
    (action : jsstring) : outcome :=
  let value := getValue h in
  match getImageLists h s value with
  | Throw e => {| events := []; settled := Rejected e |}
  | Ok images =>
    let '(evs0, submitted) := resolveAll h images in
    let '(ps, evs1) := settleAll h submitted schedule in
    match promiseAll ps with
    | None => {| events := evs0 ++ evs1; settled := Pending |}
    | Some results =>
      let o := rewriter h s action value results in
      {| events := evs0 ++ evs1 ++ events o; settled := settled o |}
    end
  end.

(** ** A host for the scenarios *)

Definition SLASH : cu := 47%N.
Definition FULLSTOP : cu := 46%N.
Definition PERCENT : cu := 37%N.

(** Node's posix [path.dirname]: the path up to the last slash that is
    followed by a name, [.] or [/] when there is none. [scan] returns that
    index and whether a name was seen to its right. *)
Fixpoint dirname_scan (l : jsstring) (i : nat) : option nat * bool :=
  match l with
  | [] => (None, false)
  | c :: l' =>
    match dirname_scan l' (S i) with
    | (Some e, _) => (Some e, true)
    | (None, seen) =>
      if cu_eqb c SLASH then ((if seen then Some i else None), seen)
      else (None, true)
    end
  end.

Definition posix_dirname (p : jsstring) : jsstring :=
  match p with
  | [] => [FULLSTOP]
  | c :: l =>
    match (dirname_scan l 1).1 with
    | Some 1 => if cu_eqb c SLASH then [SLASH; SLASH] else take 1 p
    | Some e => take e p
    | None => if cu_eqb c SLASH then [SLASH] else [FULLSTOP]
    end
  end.

(** The last component of a path, trailing slashes dropped. *)
Fixpoint posix_base (p acc : jsstring) : jsstring :=
  match p with
  | [] => acc
  | c :: p' =>
    if cu_eqb c SLASH then
      posix_base p' (if forallb (cu_eqb SLASH) p' then acc else [])
    else posix_base p' (acc ++ [c])
  end.

(** The index of the last full stop of a name. *)
Fixpoint last_dot (l : jsstring) (i : nat) : option nat :=
  match l with
  | [] => None
  | c :: l' =>
    match last_dot l' (S i) with
    | Some k => Some k
    | None => if cu_eqb c FULLSTOP then Some i else None
    end
  end.

(** Node's posix [path.parse(p).name]: the last component without its
    extension; a leading full stop does not start an extension. *)
Definition posix_parse_name (p : jsstring) : jsstring :=
  let base := posix_base p [] in
  if str_eqb base (js "..") then base
  else
    match last_dot base 0 with
    | Some (S k) => take (S k) base
    | _ => base
    end.

Definition hexDigit (c : cu) : option N :=
  if ((48 <=? c) && (c <=? 57))%N then Some (c - 48)%N
  else if ((65 <=? c) && (c <=? 70))%N then Some (c - 55)%N
  else if ((97 <=? c) && (c <=? 102))%N then Some (c - 87)%N
  else None.

(** The characters [decodeURI] leaves escaped: [;/?:@&=+$,#]. *)
Definition uriReserved : jsstring := js ";/?:@&=+$,#".

(** [decodeURI] on strings whose escapes are ASCII octets, after the
    ECMAScript Decode: a [%] needs two hexadecimal digits behind it, the
    escape of a reserved character is kept as written. The escape of an
    octet above 127 starts a UTF-8 sequence; none occurs in the scenarios
    and this instance answers it with URIError. *)
Fixpoint decodeURI_ascii (s : jsstring) : option jsstring :=
  match s with
  | [] => Some []
  | c :: t =>
    if cu_eqb c PERCENT then
      match t with
      | h1 :: h2 :: t2 =>
        match hexDigit h1, hexDigit h2 with
        | Some a, Some b =>
          let v := (16 * a + b)%N in
          if (v <? 128)%N then
            (if existsb (cu_eqb v) uriReserved then
               (fun r => c :: h1 :: h2 :: r) <$> decodeURI_ascii t2
             else (fun r => v :: r) <$> decodeURI_ascii t2)
          else None
        | _, _ => None
        end
      | _ => None
      end
    else (fun r => c :: r) <$> decodeURI_ascii t
  end.

Definition lookup_str {A : Type} (k : jsstring) (l : list (jsstring * A)) : option A :=
  snd <$> find (fun p => str_eqb (fst p) k) l.

(** A vault with the files [files] whose paths are already normalized, an
    attachment folder that places a file where it is asked for, an active
    editor holding [doc], and a transport that answers the upload of the
    file called [n] with [answers n] (a 404 for a name it does not know). *)
Definition scenarioHost (doc : jsstring) (files : list jsstring)
    (answers : list (jsstring * uploadResult)) : Host :=
  {| activeDoc := Some doc;
     getBasePath := js "/vault";
     normalizePath := fun p => p;
     getAvailablePathForAttachment := fun p => p;
     fileExists := fun p => existsb (str_eqb p) files;
     readBinary := fun p => p;
     dirname := posix_dirname;
     parse_name := posix_parse_name;
     upload := fun n _ _ => default (Failed (js "404")) (lookup_str n answers);
     decodeURI := decodeURI_ascii |}.

Definition settings (dir : string) (alt del repl ign : bool) : PublishSettings :=
  MkSettings (js dir) alt del repl ign.

(** ** Vocabulary of the statements *)

Definition succeeded (r : uploadResult) : bool :=
  match r with
  | Uploaded _ => true
  | Failed _ => false
  end.

(** The transport answers every upload of [submitted] with a URL. *)
Definition allUploaded (h : Host) (submitted : list Image) : bool :=
  forallb (fun image => succeeded (uploadOf h image)) submitted.

(** Every one of the first [n] uploads settles under [schedule]. *)
Definition covers (schedule : list nat) (n : nat) : bool :=
  forallb (fun i => mem_nat i schedule) (seq 0 n).

(** A submitted image once its upload has settled. *)
Definition uploadedImage (h : Host) (image : Image) : Image :=
  match uploadOf h image with
  | Uploaded imgUrl => withUrl image imgUrl
  | Failed _ => image
  end.

(** The images [results] rearranged in the order in which their uploads
    settled. *)
Definition inSettleOrder (schedule : list nat) (results : list Image) : list Image :=
  omap (fun i => results !! i) schedule.

Definition isClipboard (e : event) : bool :=
  match e with
  | EClipboard _ => true
  | _ => false
  end.

(** The effects of the rewriter: substitution is not an effect, so these
    are the deletions, the write into the editor and the clipboard. *)
Definition isRewriterEffect (e : event) : bool :=
  match e with
  | EDelete _ | ESetValue _ | EClipboard _ => true
  | _ => false
  end.

(** The i-th promise is resolved with the i-th submitted image and its url. *)
Definition resolvedAt (h : Host) (submitted : list Image) (ps : promises)
    (i : nat) : Prop :=
  exists image, submitted !! i = Some image
                /\ ps !! i = Some (Some (uploadedImage h image)).

(** No notice so far, and one promise per submitted image. *)
Definition settleInv (submitted : list Image) (st : promises * list event) : Prop :=
  st.2 = [] /\ length st.1 = length submitted.

Arguments js : simpl never.

(** ** Scenarios *)

Definition LF : cu := 10%N.

(** Two embeds, one per line. *)
Definition twoEmbeds : jsstring := js "![[a.png]]" ++ [LF] ++ js "![[b.png]]".

(** Four embeds, one per line. *)
Definition fourEmbeds : jsstring :=
  js "![[a.png]]" ++ [LF] ++ js "![[b.png]]" ++ [LF] ++ js "![[c.png]]"
  ++ [LF] ++ js "![[d.png]]".

Definition cdn : list (jsstring * uploadResult) :=
  [ (js "a.png", Uploaded (js "https://cdn/a.png"));
    (js "b.png", Uploaded (js "https://cdn/b.png"));
    (js "c.png", Uploaded (js "https://cdn/c.png"));
    (js "d.png", Uploaded (js "https://cdn/d.png")) ].

(** Both files are in the vault and both uploads succeed. *)
Definition hostTwo : Host :=
  scenarioHost twoEmbeds [js "assets/a.png"; js "assets/b.png"] cdn.

(** Both files are in the vault; the transport rejects [a.png] with the
    message 500 and accepts [b.png]. *)
Definition hostFailingA : Host :=
  scenarioHost twoEmbeds [js "assets/a.png"; js "assets/b.png"]
    [ (js "a.png", Failed (js "500"));
      (js "b.png", Uploaded (js "https://cdn/b.png")) ].

(** The second of four files is not in the vault. *)
Definition hostMissingB : Host :=
  scenarioHost fourEmbeds [js "assets/a.png"; js "assets/c.png"; js "assets/d.png"] cdn.

(** A wiki embed of [name] as a match object would carry it. *)
Definition wikiMatchOf (name : string) : jsmatch :=
  JsMatch 0 (js "![[" ++ js name ++ js "]]") [(1, js name)].

Definition isReadOrUpload (e : event) : bool :=
  match e with
  | EReadBinary _ | EUpload _ _ _ => true
  | _ => false
  end.

(** An embed whose file name holds the two characters [$&]. *)
Definition hostDollar : Host :=
  scenarioHost (js "![[a$&b.png]]") [js "assets/a$&b.png"]
    [ (js "a$&b.png", Uploaded (js "https://cdn/x.png")) ].


Definition isCopiedNotice (e : event) : bool :=
  match e with
  | ENotice m => str_eqb m (js "Copied to clipboard")
  | _ => false
  end.

(** Hyphens and underscores become spaces. *)
Definition spaced (c : cu) : cu :=
  if cu_eqb c 45%N || cu_eqb c 95%N then SPACE else c.

(** ** The matcher in closed form *)

(** A lazy star over a character class, run from [(i, l)]: the continuation
    is tried at each position in turn, as long as the characters passed are
    in the class. *)
Fixpoint lazy_scan (ok : cu -> bool) (K : cont) (i : nat) (l : jsstring)
    (caps : list (nat * jsstring)) : option mstate :=
  match K (MState i l caps) with
  | Some z => Some z
  | None =>
    match l with
    | a :: t => if ok a then lazy_scan ok K (S i) t caps else None
    | [] => None
    end
  end.

(** A greedy star over a character class: the continuation is tried at the
    farthest position first. *)
Fixpoint greedy_scan (ok : cu -> bool) (K : cont) (i : nat) (l : jsstring)
    (caps : list (nat * jsstring)) : option mstate :=
  match l with
  | a :: t =>
    if ok a then
      match greedy_scan ok K (S i) t caps with
      | Some z => Some z
      | None => K (MState i l caps)
      end
    else K (MState i l caps)
  | [] => K (MState i l caps)
  end.

(** What a pattern that stands for one character of a class does. *)
Definition classMatcher (ok : cu -> bool) (x : mstate) (c : cont) : option mstate :=
  match rest x with
  | a :: t => if ok a then c (advance x t) else None
  | [] => None
  end.

Definition notLineTerminator (c : cu) : bool := negb (isLineTerminator c).
Definition anyChar (_ : cu) : bool := true.

(** What the lazy [[\s\S]+?---\n] of [PROPERTIES_REGEX] looks for: the text
    behind the first [---] followed by a line feed, if there is one,
    wherever on a line it stands. *)
Fixpoint closing (l : jsstring) : option jsstring :=
  if startsWith l [45; 45; 45; 10]%N then Some (drop 4 l)
  else match l with
       | [] => None
       | _ :: l' => closing l'
       end.

(** The replacement of line 114 in closed form (it is proved equal to
    [replace_by_empty PROPERTIES_REGEX] below): a text that starts with
    [---], then holds at least one character, then somewhere a [---]
    followed by a line feed, loses everything up to the first such
    delimiter; any other text is left as it is. *)
Definition stripHeader (v : jsstring) : jsstring :=
  match v with
  | 45%N :: 45%N :: 45%N :: _ :: body =>
    match closing body with
    | Some rest => rest
    | None => v
    end
  | _ => v
  end.

(** [---] and a line feed. *)
Definition CLOSING : jsstring := [45; 45; 45; 10]%N.




(** ** What a successful match went through *)

(** [reach r x y]: the pattern [r] can take the matcher from state [x] to
    state [y]. Every state the matcher hands to its continuation is reached
    in this sense (the converse is not claimed: the relation forgets the
    order in which the alternatives are tried and the bounds of a
    quantifier). *)
Inductive reach : regex -> mstate -> mstate -> Prop :=
| reach_Empty x : reach Empty x x
| reach_Char ch x t :
    rest x = ch :: t -> reach (Char ch) x (advance x t)
| reach_Dot a x t :
    rest x = a :: t -> isLineTerminator a = false -> reach Dot x (advance x t)
| reach_AnyChar a x t :
    rest x = a :: t -> reach AnyChar x (advance x t)
| reach_AssertStart x :
    endIndex x = 0 -> reach AssertStart x x
| reach_Seq a b x y z :
    reach a x y -> reach b y z -> reach (Seq a b) x z
| reach_Alt_l a b x y : reach a x y -> reach (Alt a b) x y
| reach_Alt_r a b x y : reach b x y -> reach (Alt a b) x y
| reach_Group i r x y :
    reach r x y ->
    reach (Group i r) x (set_capture i (take (endIndex y - endIndex x) (rest x)) y)
| reach_Repeat_stop min max greedy r x :
    reach (Repeat min max greedy r) x x
| reach_Repeat_more min max min' max' greedy r x y z :
    reach r (clear_captures (groups_of r) x) y ->
    reach (Repeat min' max' greedy r) y z ->
    reach (Repeat min max greedy r) x z.

(** The capture of group [i] in a state. *)
Definition capture (x : mstate) (i : nat) : option jsstring :=
  snd <$> find (fun p => Nat.eqb (fst p) i) (captures x).

(** The extensions of the two patterns. *)
Definition extensions : list jsstring :=
  [ js "png"; js "jpg"; js "jpeg"; js "gif"; js "svg"; js "webp"; js "excalidraw" ].

(** A pattern that cannot consume a line terminator. *)
Fixpoint lineFree (r : regex) : bool :=
  match r with
  | Empty | AssertStart | Dot => true
  | Char c => notLineTerminator c
  | AnyChar => false
  | Seq a b | Alt a b => lineFree a && lineFree b
  | Group _ r | Repeat _ _ _ r => lineFree r
  end.


(** The inline match [m] gave the image [image]. *)
Definition mdImageOf (h : Host) (m : jsmatch) (image : Image) : Prop :=
  source image = whole m
  /\ decodeURI h (group_str m 2) = Some (name image)
  /\ path image = name image
  /\ url image = [] /\ fullPath image = [].

Definition isLocalMatch (m : jsmatch) : bool := negb (isRemote (group_str m 2)).

(** An inline embed ahead of a wiki embed. *)
Definition inlineThenWiki : jsstring := js "![a](b.png) ![[c.png]]".

(** Somewhere in [w] a full stop is followed by one of the extensions. *)
Fixpoint mentionsExtension (w : jsstring) : bool :=
  match w with
  | [] => false
  | c :: t =>
    (cu_eqb c FULLSTOP && existsb (startsWith t) extensions) || mentionsExtension t
  end.

(** The optional third group of the bracketed-wiki pattern and the two
    closing brackets. *)
Definition WIKI_GROUP3 : regex := Group 3 (Alt Empty (Repeat 0 None true Dot)).
Definition WIKI_TAIL : regex :=
  Seq (Repeat 0 (Some 1) true WIKI_GROUP3) (Seq (Char 93%N) (Char 93%N)).

(** The exclamation mark that starts both patterns. *)
Definition BANG : cu := 33%N.

Definition noBang (l : jsstring) : bool :=
  forallb (fun c => negb (cu_eqb c BANG)) l.

Definition isUpload (e : event) : bool :=
  match e with
  | EUpload _ _ _ => true
  | _ => false
  end.

(** The longest prefix of the images whose files are there. *)
Fixpoint locatedPrefix (h : Host) (images : list Image) : list Image :=
  match images with
  | [] => []
  | image :: more =>
    if located h image then image :: locatedPrefix h more else []
  end.

(** The first image whose file is not there. *)
Fixpoint firstMiss (h : Host) (images : list Image) : option Image :=
  match images with
  | [] => None
  | image :: more => if located h image then firstMiss h more else Some image
  end.

(** [search] does not occur in [s]. *)
Fixpoint absent (search s : jsstring) : bool :=
  negb (startsWith s search)
  && match s with
     | [] => true
     | _ :: s' => absent search s'
     end.

Definition plain (template : jsstring) : bool :=
  forallb (fun c => negb (cu_eqb c DOLLAR)) template.

(** The upload event of a reference whose file is there. *)
Definition uploadEvent (h : Host) (image : Image) : event :=
  let r := resolved h image in
  EUpload (name r) (readBinary h (fullPath r)) (getBasePath h ++ js "/" ++ fullPath r).

(** The warning shown when the upload of [image] is rejected. *)
Definition failureNotice (image : Image) (message : jsstring) : event :=
  ENotice (js "Upload " ++ path image
           ++ js " failed, remote server returned an error: " ++ message).

(** The same embed on two lines. *)
Definition sameEmbedTwice : jsstring :=
  js "![[a.png]]" ++ [LF] ++ js "![[a.png]]".

Definition hostSameTwice : Host :=
  scenarioHost sameEmbedTwice [js "assets/a.png"] cdn.

(** An inline embed whose path holds a malformed escape. *)
Definition hostBadEscape : Host :=
  scenarioHost (js "![[a.png]]" ++ [LF] ++ js "![x](%zz.png)") [js "assets/a.png"] cdn.

(** [y] lies ahead of [x] in the same input. *)
Definition ahead (x y : mstate) : Prop :=
  endIndex x <= endIndex y
  /\ endIndex y + length (rest y) = endIndex x + length (rest x).

(** Four embeds; the third file is not in the vault and the transport
    rejects the upload of the second with the message 500. *)
Definition hostRejectedBMissingC : Host :=
  scenarioHost fourEmbeds [js "assets/a.png"; js "assets/b.png"; js "assets/d.png"]
    [ (js "a.png", Uploaded (js "https://cdn/a.png"));
      (js "b.png", Failed (js "500"));
      (js "c.png", Uploaded (js "https://cdn/c.png"));
      (js "d.png", Uploaded (js "https://cdn/d.png")) ].

(** ** The header block in the words of the specification *)





(** ** Where the embeds of a text are *)







(** * Theorems *)

Lemma cu_eqb_eq (a b : cu) : cu_eqb a b = true <-> a = b.
Proof. unfold cu_eqb. apply N.eqb_eq. Qed.

Lemma cu_eqb_refl (a : cu) : cu_eqb a a = true.
Proof. apply N.eqb_refl. Qed.

Lemma str_eqb_eq (a b : jsstring) : str_eqb a b = true <-> a = b.
Proof.
  revert b. induction a as [|x a IH]; intros [|y b]; simpl; try (split; [done|done]).
  rewrite andb_true_iff, cu_eqb_eq, IH. split.
  - intros [-> ->]. done.
  - intros [= -> ->]. done.
Qed.

Lemma str_eqb_refl (a : jsstring) : str_eqb a a = true.
Proof. induction a as [|x a IH]; simpl; [done|]. by rewrite cu_eqb_refl. Qed.

Lemma startsWith_app (p t : jsstring) : startsWith (p ++ t) p = true.
Proof. induction p as [|x p IH]; simpl; [done|]. by rewrite cu_eqb_refl. Qed.

Lemma startsWith_inv (s p : jsstring) :
  startsWith s p = true -> exists t, s = p ++ t.
Proof.
  revert s. induction p as [|x p IH]; intros s; simpl.
  - intros _. by exists s.
  - destruct s as [|y s]; [done|]. rewrite andb_true_iff, cu_eqb_eq.
    intros [-> H]. destruct (IH _ H) as [t ->]. by exists t.
Qed.




Lemma cu_eqb_sym (a b : cu) : cu_eqb a b = cu_eqb b a.
Proof. apply N.eqb_sym. Qed.

Section Settle.
Context (h : Host) (submitted : list Image).

Local Abbreviation resolvedAt := (resolvedAt h submitted).
Local Abbreviation settleInv := (settleInv submitted).

Lemma settleOne_success (st : promises * list event) (i : nat) :
  allUploaded h submitted = true ->
  settleInv st ->
  settleInv (settleOne h submitted st i)
  /\ (forall j, resolvedAt st.1 j -> resolvedAt (settleOne h submitted st i).1 j)
  /\ (i < length submitted -> resolvedAt (settleOne h submitted st i).1 i).
Proof.
  intros Hall [Hev Hlen]. unfold settleOne.
  destruct (submitted !! i) as [image|] eqn:Hi.
  - assert (Hs : succeeded (uploadOf h image) = true).
    { unfold allUploaded in Hall. rewrite forallb_forall in Hall.
      apply Hall. apply list_elem_of_In. by eapply list_elem_of_lookup_2. }
    assert (Hu : uploadedImage h image = match uploadOf h image with
              | Uploaded u => withUrl image u | Failed _ => image end) by done.
    destruct (uploadOf h image) as [u|msg]; [|done]. simpl.
    apply lookup_lt_Some in Hi as Hlt.
    split; [|split].
    + unfold settleInv. simpl. by rewrite length_insert.
    + intros j (img & Hj & Hp). exists img. split; [done|].
      destruct (decide (i = j)) as [->|Hne].
      * rewrite list_lookup_insert_eq by lia.
        rewrite Hj in Hi. injection Hi as ->. by rewrite Hu.
      * by rewrite list_lookup_insert_ne.
    + intros _. exists image. split; [done|].
      rewrite list_lookup_insert_eq by lia. by rewrite Hu.
  - split; [done|]. split; [done|].
    intros Hlt. apply lookup_ge_None_1 in Hi. lia.
Qed.

Lemma settle_fold_success (schedule : list nat) (st : promises * list event) :
  allUploaded h submitted = true ->
  settleInv st ->
  let st' := foldl (settleOne h submitted) st schedule in
  settleInv st'
  /\ (forall j, resolvedAt st.1 j -> resolvedAt st'.1 j)
  /\ (forall i, i ∈ schedule -> i < length submitted -> resolvedAt st'.1 i).
Proof.
  intros Hall. revert st.
  induction schedule as [|i schedule IH]; intros st Hinv; simpl.
  - split; [done|]. split; [done|]. intros i Hi. by apply elem_of_nil in Hi.
  - destruct (settleOne_success st i Hall Hinv) as (Hinv1 & Hkeep1 & Hnew1).
    destruct (IH _ Hinv1) as (Hinv2 & Hkeep2 & Hnew2).
    split; [done|]. split; [by auto|].
    intros j Hj Hlt. apply elem_of_cons in Hj as [->|Hj]; by auto.
Qed.

Lemma mem_nat_elem_of (i : nat) (l : list nat) : mem_nat i l = true <-> i ∈ l.
Proof.
  unfold mem_nat. rewrite existsb_exists. split.
  - intros (x & Hin & Heq). apply Nat.eqb_eq in Heq as <-.
    by apply list_elem_of_In.
  - intros Hin. exists i. split; [by apply list_elem_of_In|apply Nat.eqb_refl].
Qed.

Lemma covers_elem_of (schedule : list nat) (n i : nat) :
  covers schedule n = true -> i < n -> i ∈ schedule.
Proof.
  unfold covers. rewrite forallb_forall. intros H Hlt.
  apply mem_nat_elem_of, H, in_seq. lia.
Qed.

(** When every upload succeeds and settles, the array ends up resolved
    with the images in the order of submission, whatever the order in
    which they settled, and no notice is shown. *)
Lemma settleAll_success (schedule : list nat) :
  allUploaded h submitted = true ->
  covers schedule (length submitted) = true ->
  settleAll h submitted schedule
  = (map (fun image => Some (uploadedImage h image)) submitted, []).
Proof.
  intros Hall Hcov. unfold settleAll.
  set (st0 := (replicate (length submitted) (None : option Image), [] : list event)).
  assert (Hinv0 : settleInv st0).
  { split; [done|]. simpl. by rewrite length_replicate. }
  destruct (settle_fold_success schedule st0 Hall Hinv0) as ([Hev Hlen] & _ & Hnew).
  destruct (foldl (settleOne h submitted) st0 schedule) as [ps evs].
  simpl in *. subst evs. f_equal. apply list_eq. intros i.
  rewrite list_lookup_fmap.
  destruct (decide (i < length submitted)) as [Hlt|Hge].
  - destruct (Hnew i) as (image & Hi & Hp); [by eapply covers_elem_of|done|].
    by rewrite Hp, Hi.
  - rewrite (lookup_ge_None_2 ps) by lia.
    by rewrite (lookup_ge_None_2 submitted) by lia.
Qed.

Lemma promiseAll_resolved (images : list Image) :
  promiseAll (map Some images) = Some images.
Proof. induction images as [|x l IH]; simpl; [done|]. by rewrite IH. Qed.
End Settle.

Section Process.
Context (h : Host) (s : PublishSettings).

Lemma resolveAll_located (pre more : list Image) :
  forallb (located h) pre = true ->
  resolveAll h (pre ++ more)
  = (flat_map (submitEvents h) pre ++ (resolveAll h more).1,
     map (resolved h) pre ++ (resolveAll h more).2).
Proof.
  induction pre as [|image pre IH]; cbn [forallb app flat_map map resolveAll].
  - intros _. by destruct (resolveAll h more).
  - rewrite andb_true_iff. intros [Hloc Hpre]. rewrite Hloc, (IH Hpre).
    by rewrite <- app_assoc.
Qed.

Lemma resolveAll_miss (bad : Image) (post : list Image) :
  located h bad = false ->
  resolveAll h (bad :: post) = (missEvents h bad, []).
Proof. intros Hbad. cbn [resolveAll]. by rewrite Hbad. Qed.

(** The loop of the rewriter is a left fold of [substitute]. *)
Lemma rewrite_text (value : jsstring) (images : list Image) :
  (rewrite h s value images).1 = foldl (substitute h s) value images.
Proof.
  revert value. induction images as [|image more IH]; intros value; simpl; [done|].
  specialize (IH (substitute h s value image)).
  by destruct (rewrite h s (substitute h s value image) more).
Qed.

Lemma rewrite_deletions (value : jsstring) (images : list Image) :
  (rewrite h s value images).2
  = if deleteAttachments s then map (fun image => EDelete (fullPath image)) images
    else [].
Proof.
  revert value. induction images as [|image more IH]; intros value; simpl.
  - by destruct (deleteAttachments s).
  - specialize (IH (substitute h s value image)).
    destruct (rewrite h s (substitute h s value image) more) as [v evs].
    simpl in *. rewrite IH. by destruct (deleteAttachments s).
Qed.

(** When every submitted upload succeeds and settles, [process] runs the
    rewriter on the images in the order of submission. *)
Lemma process_success (schedule : list nat) (action : jsstring)
    (images submitted : list Image) (evs0 : list event) :
  getImageLists h s (getValue h) = Ok images ->
  resolveAll h images = (evs0, submitted) ->
  allUploaded h submitted = true ->
  covers schedule (length submitted) = true ->
  process h s schedule action
  = let o := rewriter h s action (getValue h) (map (uploadedImage h) submitted) in
    {| events := evs0 ++ events o; settled := settled o |}.
Proof.
  intros Hget Hres Hall Hcov. unfold process.
  rewrite Hget, Hres, (settleAll_success h submitted schedule Hall Hcov).
  rewrite <- (map_map (uploadedImage h) Some), promiseAll_resolved.
  done.
Qed.

(** A failed upload leaves its promise pending. *)
Lemma settle_fold_failed (submitted : list Image) (schedule : list nat)
    (st : promises * list event) (i : nat) (image : Image) (message : jsstring) :
  submitted !! i = Some image ->
  uploadOf h image = Failed message ->
  st.1 !! i = Some None ->
  (foldl (settleOne h submitted) st schedule).1 !! i = Some None.
Proof.
  intros Hi Hfail. revert st.
  induction schedule as [|j schedule IH]; intros st Hst; simpl; [done|].
  apply IH. unfold settleOne.
  destruct (submitted !! j) as [image'|] eqn:Hj; [|done].
  destruct (uploadOf h image') as [u|msg] eqn:Hu; [|done]. simpl.
  destruct (decide (j = i)) as [->|Hne].
  - rewrite Hi in Hj. injection Hj as <-. congruence.
  - by rewrite list_lookup_insert_ne.
Qed.

Lemma promiseAll_pending (ps : promises) (i : nat) :
  ps !! i = Some None -> promiseAll ps = None.
Proof.
  revert i. induction ps as [|p ps IH]; intros [|i]; simpl; try done.
  - by intros [= ->].
  - intros Hi. destruct p; [|done]. by rewrite (IH i Hi).
Qed.

(** Whatever the order in which the uploads settle, one failed upload
    keeps [Promise.all] from ever resolving: the rewriter is not run. *)
Lemma failed_upload_blocks (schedule : list nat) (action : jsstring)
    (images submitted : list Image) (evs0 : list event)
    (i : nat) (image : Image) (message : jsstring) :
  getImageLists h s (getValue h) = Ok images ->
  resolveAll h images = (evs0, submitted) ->
  submitted !! i = Some image ->
  uploadOf h image = Failed message ->
  process h s schedule action
  = {| events := evs0 ++ (settleAll h submitted schedule).2; settled := Pending |}.
Proof.
  intros Hget Hres Hi Hfail. unfold process. rewrite Hget, Hres.
  pose proof (settle_fold_failed submitted schedule
                (replicate (length submitted) None, []) i image message Hi Hfail) as H.
  unfold settleAll.
  destruct (foldl _ _ schedule) as [ps evs1] eqn:Hfold. simpl in H.
  rewrite (promiseAll_pending ps i); [done|].
  apply H. apply lookup_replicate_2. by eapply lookup_lt_Some.
Qed.
End Process.

(** ** The matcher on character classes and literal words *)

Lemma clear_captures_nil (x : mstate) : clear_captures [] x = x.
Proof.
  destruct x as [i l caps]. unfold clear_captures. cbn [endIndex rest captures].
  f_equal. induction caps as [|p caps IH]; simpl; [done|]. f_equal. exact IH.
Qed.

Lemma matcher_Dot (x : mstate) (c : cont) :
  matcher Dot x c = classMatcher notLineTerminator x c.
Proof.
  unfold classMatcher, notLineTerminator. cbn [matcher].
  destruct (rest x) as [|a t]; [done|]. by destruct (isLineTerminator a).
Qed.

Lemma matcher_AnyChar (x : mstate) (c : cont) :
  matcher AnyChar x c = classMatcher anyChar x c.
Proof. unfold classMatcher, anyChar. cbn [matcher]. by destruct (rest x). Qed.

Section ClassStar.
Context (atom : regex) (ok : cu -> bool).
Hypothesis atom_class : forall x c, matcher atom x c = classMatcher ok x c.

Lemma repeat_lazy_class (l : jsstring) (fuel i : nat)
    (caps : list (nat * jsstring)) (K : cont) :
  length l < fuel ->
  repeatMatcher fuel (matcher atom) [] 0 None false (MState i l caps) K
  = lazy_scan ok K i l caps.
Proof.
  revert fuel i. induction l as [|a t IH]; intros fuel i Hfuel;
    (destruct fuel as [|fuel]; [cbn [length] in Hfuel; lia|]);
    cbn [repeatMatcher lazy_scan Nat.eqb negb andb];
    (destruct (K (MState i _ caps)) as [z|]; [done|]);
    rewrite clear_captures_nil, atom_class; unfold classMatcher; cbn [rest].
  - done.
  - destruct (ok a); [|done]. unfold advance. cbn [endIndex captures].
    rewrite (proj2 (Nat.eqb_neq (S i) i)) by lia.
    cbn [pred option_map]. apply IH. cbn [length] in Hfuel. lia.
Qed.

Lemma repeat_greedy_class (l : jsstring) (fuel i : nat)
    (caps : list (nat * jsstring)) (K : cont) :
  length l < fuel ->
  repeatMatcher fuel (matcher atom) [] 0 None true (MState i l caps) K
  = greedy_scan ok K i l caps.
Proof.
  revert fuel i. induction l as [|a t IH]; intros fuel i Hfuel;
    (destruct fuel as [|fuel]; [cbn [length] in Hfuel; lia|]);
    cbn [repeatMatcher greedy_scan Nat.eqb negb andb];
    rewrite clear_captures_nil, atom_class; unfold classMatcher; cbn [rest].
  - done.
  - destruct (ok a); [|done]. unfold advance. cbn [endIndex captures].
    rewrite (proj2 (Nat.eqb_neq (S i) i)) by lia.
    cbn [pred option_map]. rewrite IH; [done|]. cbn [length] in Hfuel. lia.
Qed.

Hypothesis atom_groups : groups_of atom = [].

Lemma matcher_lazy_star (l : jsstring) (i : nat)
    (caps : list (nat * jsstring)) (K : cont) :
  matcher (Repeat 0 None false atom) (MState i l caps) K = lazy_scan ok K i l caps.
Proof.
  cbn [matcher rest]. rewrite atom_groups. apply repeat_lazy_class. lia.
Qed.

Lemma matcher_greedy_star (l : jsstring) (i : nat)
    (caps : list (nat * jsstring)) (K : cont) :
  matcher (Repeat 0 None true atom) (MState i l caps) K = greedy_scan ok K i l caps.
Proof.
  cbn [matcher rest]. rewrite atom_groups. apply repeat_greedy_class. lia.
Qed.

(** A lazy plus: one character of the class, then the lazy star. *)
Lemma matcher_lazy_plus (l : jsstring) (i : nat)
    (caps : list (nat * jsstring)) (K : cont) :
  matcher (Repeat 1 None false atom) (MState i l caps) K
  = match l with
    | a :: t => if ok a then lazy_scan ok K (S i) t caps else None
    | [] => None
    end.
Proof.
  cbn [matcher rest]. rewrite atom_groups.
  replace (1 + length l + 1) with (S (S (length l))) by lia.
  remember (S (length l)) as f eqn:Hf.
  cbn [repeatMatcher Nat.eqb negb andb].
  rewrite clear_captures_nil, atom_class. unfold classMatcher. cbn [rest].
  destruct l as [|a t]; [done|]. destruct (ok a); [|done].
  unfold advance. cbn [endIndex captures pred option_map].
  apply repeat_lazy_class. subst f. cbn [length]. lia.
Qed.
End ClassStar.

(** A literal word is matched when the input starts with it. *)
Lemma matcher_word (w : jsstring) (x : mstate) (K : cont) :
  matcher (cat (map Char w)) x K
  = if startsWith (rest x) w
    then K (MState (endIndex x + length w) (drop (length w) (rest x)) (captures x))
    else None.
Proof.
  revert x. induction w as [|c w IH]; intros [i l caps].
  - cbn. by rewrite Nat.add_0_r.
  - assert (Hstep : matcher (cat (map Char (c :: w))) (MState i l caps) K
                    = matcher (Char c) (MState i l caps)
                              (fun y => matcher (cat (map Char w)) y K)).
    { destruct w; reflexivity. }
    rewrite Hstep. cbn [matcher rest startsWith endIndex captures].
    destruct l as [|a t]; [done|]. rewrite (cu_eqb_sym c a).
    destruct (cu_eqb a c); [|done]. cbn [andb]. rewrite IH.
    unfold advance. cbn [rest endIndex captures length drop].
    by replace (S i + length w) with (i + S (length w)) by lia.
Qed.

(** ** The upload orchestrator *)

(** C1 (the code departs from the claim). Two embeds whose files exist; the
    transport rejects the first upload with the message 500 and accepts the
    second. The warning naming [assets/a.png] and the message is shown, but
    the promise of the failed upload is never settled, so [Promise.all]
    never resolves: the promise returned by [process] stays pending and the
    rewriter does not run, not even for the reference that was uploaded. *)
Theorem failed_upload_leaves_process_pending :
  process hostFailingA (settings "assets" true true true false) [0; 1] ACTION_PUBLISH
  = {| events :=
         [ EResolve (js "assets/a.png"); EExists (js "assets/a.png");
           EReadBinary (js "assets/a.png");
           EUpload (js "a.png") (js "assets/a.png") (js "/vault/assets/a.png");
           EResolve (js "assets/b.png"); EExists (js "assets/b.png");
           EReadBinary (js "assets/b.png");
           EUpload (js "b.png") (js "assets/b.png") (js "/vault/assets/b.png");
           ENotice (js "Upload assets/a.png failed, remote server returned an error: 500") ];
       settled := Pending |}.
Proof. vm_compute. reflexivity. Qed.

(** ** The asset resolver *)

(** The loop halts at the first miss. Let the references be
    [pre ++ bad :: post], the files of [pre] being there and the file of
    [bad] not. The loop resolves and submits [pre], looks [bad] up, warns
    and stops: its effects and the submitted uploads do not depend on
    [post], and nothing is read or uploaded for [bad]. The promise array is
    that of the uploads of [pre]: [process] waits for it, and only when
    these uploads have all succeeded does the rewriter run, on the
    references of [pre]. *)
Lemma resolution_halts_at_first_miss
    (h : Host) (s : PublishSettings) (schedule : list nat) (action : jsstring)
    (pre post : list Image) (bad : Image) :
  getImageLists h s (getValue h) = Ok (pre ++ bad :: post) ->
  forallb (located h) pre = true ->
  located h bad = false ->
  let evs0 := flat_map (submitEvents h) pre ++ missEvents h bad in
  let submitted := map (resolved h) pre in
  (forall post', resolveAll h (pre ++ bad :: post') = (evs0, submitted))
  /\ (exists warning, missEvents h bad
        = lookupEvents h bad
          ++ [ENotice warning; ELog (normalizePath h (fullPath (resolved h bad)) ++ js " not exist")])
  /\ List.filter isReadOrUpload (missEvents h bad) = []
  /\ process h s schedule action
     = (let '(ps, evs1) := settleAll h submitted schedule in
        match promiseAll ps with
        | None => {| events := evs0 ++ evs1; settled := Pending |}
        | Some results =>
          let o := rewriter h s action (getValue h) results in
          {| events := evs0 ++ evs1 ++ events o; settled := settled o |}
        end)
  /\ (allUploaded h submitted = true ->
      covers schedule (length submitted) = true ->
      process h s schedule action
      = let o := rewriter h s action (getValue h) (map (uploadedImage h) submitted) in
        {| events := evs0 ++ events o; settled := settled o |}).
Proof.
  intros Hget Hpre Hbad evs0 submitted.
  assert (Hres : forall post', resolveAll h (pre ++ bad :: post') = (evs0, submitted)).
  { intros post'. rewrite (resolveAll_located h pre _ Hpre).
    rewrite (resolveAll_miss h bad post' Hbad). cbn [fst snd].
    by rewrite app_nil_r. }
  split; [done|]. split; [by eexists|]. split; [done|]. split.
  - unfold process. by rewrite Hget, (Hres post).
  - intros Hall Hcov. by eapply process_success.
Qed.

Lemma resolution_halts_at_first_miss_witness :
  let h := hostMissingB in
  let s := settings "assets" true false false false in
  let pre := [wikiImage s (wikiMatchOf "a.png")] in
  let bad := wikiImage s (wikiMatchOf "b.png") in
  let evs0 := flat_map (submitEvents h) pre ++ missEvents h bad in
  let submitted := map (resolved h) pre in
  process h s [0] ACTION_PUBLISH
  = let o := rewriter h s ACTION_PUBLISH (getValue h) (map (uploadedImage h) submitted) in
    {| events := evs0 ++ events o; settled := settled o |}.
Proof.
  intros h s pre bad evs0 submitted.
  refine ((fun H => proj2 (proj2 (proj2 (proj2 H))) _ _)
            (resolution_halts_at_first_miss h s [0] ACTION_PUBLISH pre
               [wikiImage s (wikiMatchOf "c.png"); wikiImage s (wikiMatchOf "d.png")]
               bad _ _ _));
    vm_compute; reflexivity.
Defined.

(** C2 (the code departs from the claim). Four embeds, one per line; the
    file of the third is not in the vault and the transport rejects the
    upload of the second with the message 500. The loop halts at the third
    reference as the claim says: the first two are looked up, read and
    uploaded, the third is looked up and the warning is shown, nothing is
    done for the fourth. But the outcome of the first upload is not
    honored: the promise of the rejected upload is never settled (the
    defect of C1), so the promise returned by [process] stays pending and
    nothing is substituted, deleted, written back or copied. In the second
    run the second file is missing and the one upload before it succeeds:
    there the first reference is substituted, and the references from the
    miss on are left as written. *)
Theorem first_miss_after_rejected_upload :
  process hostRejectedBMissingC (settings "assets" true true true false)
          [0; 1] ACTION_PUBLISH
  = {| events :=
         [ EResolve (js "assets/a.png"); EExists (js "assets/a.png");
           EReadBinary (js "assets/a.png");
           EUpload (js "a.png") (js "assets/a.png") (js "/vault/assets/a.png");
           EResolve (js "assets/b.png"); EExists (js "assets/b.png");
           EReadBinary (js "assets/b.png");
           EUpload (js "b.png") (js "assets/b.png") (js "/vault/assets/b.png");
           EResolve (js "assets/c.png"); EExists (js "assets/c.png");
           ENotice (js "Can NOT locate c.png with assets/c.png, please check image path or attachment option in plugin setting!");
           ELog (js "assets/c.png not exist");
           ENotice (js "Upload assets/b.png failed, remote server returned an error: 500") ];
       settled := Pending |}
  /\ process hostMissingB (settings "assets" true true true false)
             [0] ACTION_PUBLISH
     = {| events :=
            [ EResolve (js "assets/a.png"); EExists (js "assets/a.png");
              EReadBinary (js "assets/a.png");
              EUpload (js "a.png") (js "assets/a.png") (js "/vault/assets/a.png");
              EResolve (js "assets/b.png"); EExists (js "assets/b.png");
              ENotice (js "Can NOT locate b.png with assets/b.png, please check image path or attachment option in plugin setting!");
              ELog (js "assets/b.png not exist");
              EDelete (js "assets/a.png");
              ESetValue (js "![a](https://cdn/a.png)" ++ [LF] ++ js "![[b.png]]"
                         ++ [LF] ++ js "![[c.png]]" ++ [LF] ++ js "![[d.png]]");
              EClipboard (js "![a](https://cdn/a.png)" ++ [LF] ++ js "![[b.png]]"
                          ++ [LF] ++ js "![[c.png]]" ++ [LF] ++ js "![[d.png]]");
              ENotice (js "Copied to clipboard") ];
          settled := Fulfilled |}.
Proof. split; vm_compute; reflexivity. Qed.

(** ** The document rewriter *)

(** C3 (as amended). When the submitted uploads all succeed, the rewriter
    receives the images in the order in which their uploads were submitted,
    whatever the order [schedule] in which they settled; it substitutes
    them one after the other, each on the text left by the one before (a
    left fold), and deletes in the same order. *)
Theorem substitutions_follow_submission_order
    (h : Host) (s : PublishSettings) (schedule : list nat) (action : jsstring)
    (images submitted : list Image) (evs0 : list event) :
  getImageLists h s (getValue h) = Ok images ->
  resolveAll h images = (evs0, submitted) ->
  allUploaded h submitted = true ->
  covers schedule (length submitted) = true ->
  let results := map (uploadedImage h) submitted in
  process h s schedule action
  = (let o := rewriter h s action (getValue h) results in
     {| events := evs0 ++ events o; settled := settled o |})
  /\ (rewrite h s (getValue h) results).1
     = foldl (substitute h s) (getValue h) results
  /\ (rewrite h s (getValue h) results).2
     = if deleteAttachments s
       then map (fun image => EDelete (fullPath image)) results
       else [].
Proof.
  intros Hget Hres Hall Hcov results. split; [by eapply process_success|].
  split; [apply rewrite_text|apply rewrite_deletions].
Qed.

Lemma substitutions_follow_submission_order_witness :
  let h := hostTwo in
  let s := settings "assets" true true false false in
  let results := map (uploadedImage h)
                     (map (resolved h) [wikiImage s (wikiMatchOf "a.png");
                                        wikiImage s (wikiMatchOf "b.png")]) in
  (rewrite h s (getValue h) results).1 = foldl (substitute h s) (getValue h) results.
Proof.
  intros h s results.
  refine (proj1 (proj2 (substitutions_follow_submission_order h s [1; 0] ACTION_PUBLISH
                   [wikiImage s (wikiMatchOf "a.png"); wikiImage s (wikiMatchOf "b.png")]
                   _ _ _ _ _ _)));
    vm_compute; reflexivity.
Defined.

(** C3 (as stated, refuted). The two uploads of [twoEmbeds] settle in the
    order b, a. Were the substitutions applied in settle order, b would be
    substituted and deleted before a; the code does a first. *)
Lemma settle_order_is_not_followed :
  let h := hostTwo in
  let s := settings "assets" true true false false in
  let submitted := map (resolved h) [wikiImage s (wikiMatchOf "a.png");
                                     wikiImage s (wikiMatchOf "b.png")] in
  let results := map (uploadedImage h) submitted in
  getImageLists h s (getValue h)
  = Ok [wikiImage s (wikiMatchOf "a.png"); wikiImage s (wikiMatchOf "b.png")]
  /\ (resolveAll h [wikiImage s (wikiMatchOf "a.png"); wikiImage s (wikiMatchOf "b.png")]).2
     = submitted
  /\ List.filter isRewriterEffect (events (process h s [1; 0] ACTION_PUBLISH))
     = [ EDelete (js "assets/a.png"); EDelete (js "assets/b.png");
         EClipboard (js "![a](https://cdn/a.png)" ++ [LF] ++ js "![b](https://cdn/b.png)") ]
  /\ List.filter isRewriterEffect
       (events (rewriter h s ACTION_PUBLISH (getValue h) (inSettleOrder [1; 0] results)))
     = [ EDelete (js "assets/b.png"); EDelete (js "assets/a.png");
         EClipboard (js "![a](https://cdn/a.png)" ++ [LF] ++ js "![b](https://cdn/b.png)") ]
  /\ List.filter isRewriterEffect (events (process h s [1; 0] ACTION_PUBLISH))
     <> List.filter isRewriterEffect
          (events (rewriter h s ACTION_PUBLISH (getValue h) (inSettleOrder [1; 0] results))).
Proof.
  vm_compute. repeat split; try reflexivity. discriminate.
Qed.

(** C4 (the code departs from the claim). The replacement is handed to
    [replaceAll] as a string, in which [$&] stands for the matched text:
    for the file [a$&b.png] the alt text is [a$&b], and what replaces the
    embed is not the tag built from it but the tag with the embed itself
    spliced in. *)
Theorem dollar_pattern_in_tag_is_expanded :
  let image := uploadedImage hostDollar
                 (resolved hostDollar
                    (wikiImage (settings "assets" true false false false)
                               (wikiMatchOf "a$&b.png"))) in
  markdownTag (altTextOf hostDollar (settings "assets" true false false false) image)
              (url image)
  = js "![a$&b](https://cdn/x.png)"
  /\ process hostDollar (settings "assets" true false false false) [0] ACTION_PUBLISH
     = {| events :=
            [ EResolve (js "assets/a$&b.png"); EExists (js "assets/a$&b.png");
              EReadBinary (js "assets/a$&b.png");
              EUpload (js "a$&b.png") (js "assets/a$&b.png")
                      (js "/vault/assets/a$&b.png");
              EClipboard (js "![a![[a$&b.png]]b](https://cdn/x.png)");
              ENotice (js "Copied to clipboard") ];
          settled := Fulfilled |}.
Proof. vm_compute. split; reflexivity. Qed.

(** Away from [$], the rewriter does what C4 says: the substitution of a
    template without [$] is the template itself. *)
Lemma getSubstitution_plain (matched before after template : jsstring) :
  forallb (fun c => negb (cu_eqb c DOLLAR)) template = true ->
  getSubstitution matched before after template = template.
Proof.
  induction template as [|c t IH]; cbn [forallb getSubstitution]; [done|].
  rewrite andb_true_iff, negb_true_iff. intros [-> Ht]. by rewrite (IH Ht).
Qed.

Lemma replaceAll_scan_char (whole x : jsstring) (c : cu) (p : nat) :
  replaceAll_scan whole [c] [SPACE] p x 0
  = map (fun a => if cu_eqb a c then SPACE else a) x.
Proof.
  revert p. induction x as [|a x IH]; intros p; cbn [replaceAll_scan map]; [done|].
  cbn [startsWith length Nat.sub]. rewrite andb_true_r, (cu_eqb_sym c a).
  destruct (cu_eqb a c); [|by rewrite IH].
  rewrite getSubstitution_plain by done. by rewrite IH.
Qed.

(** Replacing a one-character string by a space, character by character. *)
Lemma replaceAll_char (x : jsstring) (c : cu) :
  replaceAll x [c] [SPACE] = map (fun a => if cu_eqb a c then SPACE else a) x.
Proof. apply replaceAll_scan_char. Qed.

(** The alt text of C4: the [name] part of the parsed file name with every
    hyphen and every underscore turned into a space, or the empty string. *)
Lemma altTextOf_spaced (h : Host) (s : PublishSettings) (image : Image) :
  altTextOf h s image
  = if imageAltText s then map spaced (parse_name h (name image)) else [].
Proof.
  unfold altTextOf. destruct (imageAltText s); [|done].
  change (js "-") with [45%N]. change (js "_") with [95%N].
  rewrite !replaceAll_char, map_map. apply map_ext. intros a. unfold spaced.
  by destruct (cu_eqb a 45%N).
Qed.

(** ** The action dispatcher *)

(** The loop of [process] writes nothing to the clipboard. *)
Lemma resolveAll_no_clipboard (h : Host) (images submitted : list Image)
    (evs0 : list event) :
  resolveAll h images = (evs0, submitted) -> List.filter isClipboard evs0 = [].
Proof.
  revert evs0 submitted.
  induction images as [|image more IH]; intros evs0 submitted; cbn [resolveAll].
  - by intros [= <- <-].
  - destruct (located h image).
    + destruct (resolveAll h more) as [e1 s1].
      intros H. apply pair_equal_spec in H as [<- <-].
      by rewrite List.filter_app, (IH e1 s1 eq_refl).
    + by intros [= <- <-].
Qed.

(** C8 (as amended). When the dispatcher is reached (the reference matcher
    has returned and the submitted uploads have all succeeded), an action
    other than [PUBLISH] makes the promise of [process] reject with the
    error [invalid action!], nothing is copied and no success is
    signalled; for [PUBLISH] the promise is fulfilled and the run ends by
    writing the final text to the clipboard and showing the notice. *)
Theorem dispatch_publish_or_throw
    (h : Host) (s : PublishSettings) (schedule : list nat) (action : jsstring)
    (images submitted : list Image) (evs0 : list event) :
  getImageLists h s (getValue h) = Ok images ->
  resolveAll h images = (evs0, submitted) ->
  allUploaded h submitted = true ->
  covers schedule (length submitted) = true ->
  let o := process h s schedule action in
  let text := (rewrite h s (getValue h) (map (uploadedImage h) submitted)).1 in
  let final := if ignoreProperties s then replace_by_empty PROPERTIES_REGEX text
               else text in
  (action <> ACTION_PUBLISH
   /\ settled o = Rejected (Error (js "invalid action!"))
   /\ List.filter isClipboard (events o) = []
   /\ List.filter isCopiedNotice (events o) = List.filter isCopiedNotice evs0)
  \/ (action = ACTION_PUBLISH
      /\ settled o = Fulfilled
      /\ exists evs, events o
                     = evs ++ [EClipboard final; ENotice (js "Copied to clipboard")]).
Proof.
  intros Hget Hres Hall Hcov o text final. subst o.
  rewrite (process_success h s schedule action images submitted evs0 Hget Hres Hall Hcov).
  cbn zeta. unfold rewriter.
  pose proof (rewrite_deletions h s (getValue h) (map (uploadedImage h) submitted)) as Hdel.
  subst final text.
  destruct (rewrite h s (getValue h) (map (uploadedImage h) submitted)) as [v evs].
  cbn [fst snd] in *. unfold dispatch.
  destruct (str_eqb action ACTION_PUBLISH) eqn:Hact.
  - right. apply str_eqb_eq in Hact. split; [done|]. split; [done|].
    cbn [events settled].
    match goal with
    | |- context [evs ++ ?w ++ _] => exists (evs0 ++ evs ++ w)
    end.
    by rewrite <- !app_assoc.
  - left. split.
    { intros ->. by rewrite str_eqb_refl in Hact. }
    split; [done|]. cbn [events settled]. rewrite app_nil_r.
    assert (Hevs : List.filter isClipboard evs = [] /\ List.filter isCopiedNotice evs = []).
    { rewrite Hdel. clear Hdel. destruct (deleteAttachments s); [|done].
      split; induction (map (uploadedImage h) submitted) as [|x l IHl];
        try done; exact IHl. }
    destruct Hevs as [Hc Hn].
    rewrite !List.filter_app, (resolveAll_no_clipboard h images submitted evs0 Hres), Hc, Hn.
    split; destruct (replaceOriginalDoc s), (activeDoc h); cbn [List.filter isClipboard isCopiedNotice app];
      by rewrite ?app_nil_r.
Qed.

Lemma dispatch_publish_or_throw_witness :
  let o := process hostTwo (settings "assets" true false false false) [0; 1]
                   (js "ARCHIVE") in
  settled o = Rejected (Error (js "invalid action!"))
  /\ List.filter isClipboard (events o) = [].
Proof.
  intros o.
  pose (s := settings "assets" true false false false).
  pose (images := [wikiImage s (wikiMatchOf "a.png"); wikiImage s (wikiMatchOf "b.png")]).
  assert (Hget : getImageLists hostTwo s (getValue hostTwo) = Ok images)
    by (vm_compute; reflexivity).
  assert (Hres : resolveAll hostTwo images
                 = ((resolveAll hostTwo images).1, (resolveAll hostTwo images).2))
    by (vm_compute; reflexivity).
  assert (Hall : allUploaded hostTwo (resolveAll hostTwo images).2 = true)
    by (vm_compute; reflexivity).
  assert (Hcov : covers [0; 1] (length (resolveAll hostTwo images).2) = true)
    by (vm_compute; reflexivity).
  destruct (dispatch_publish_or_throw hostTwo s [0; 1] (js "ARCHIVE") images _ _
              Hget Hres Hall Hcov)
    as [(_ & Hs & Hc & _)|(Habs & _)].
  - split; [exact Hs|exact Hc].
  - exfalso. revert Habs. vm_compute. discriminate.
Defined.

(** C8 (as stated, refuted). The action decides the outcome only in a run
    that reaches the dispatcher. With an action that is not [PUBLISH], no
    error is thrown when an upload was rejected or never answers: the
    promise of [process] stays pending. With [PUBLISH], nothing is copied
    and no success is signalled when an upload was rejected, and when
    [decodeURI] throws on an inline path the invocation fails before any
    effect. *)
Lemma action_decides_only_past_the_uploads :
  let s := settings "assets" true false false false in
  settled (process hostFailingA s [0; 1] (js "ARCHIVE")) = Pending
  /\ settled (process hostTwo s [0] (js "ARCHIVE")) = Pending
  /\ settled (process hostFailingA s [0; 1] ACTION_PUBLISH) = Pending
  /\ List.filter isClipboard (events (process hostFailingA s [0; 1] ACTION_PUBLISH)) = []
  /\ List.filter isCopiedNotice (events (process hostFailingA s [0; 1] ACTION_PUBLISH)) = []
  /\ process hostBadEscape s [0] ACTION_PUBLISH
     = {| events := []; settled := Rejected URIError |}.
Proof. vm_compute. repeat split; reflexivity. Qed.

(** ** The header pattern *)

Lemma matcher_Seq (a b : regex) (x : mstate) (c : cont) :
  matcher (Seq a b) x c = matcher a x (fun y => matcher b y c).
Proof. reflexivity. Qed.

Lemma matcher_Char (ch : cu) (i : nat) (l : jsstring)
    (caps : list (nat * jsstring)) (c : cont) :
  matcher (Char ch) (MState i l caps) c
  = match l with
    | a :: t => if cu_eqb a ch then c (MState (S i) t caps) else None
    | [] => None
    end.
Proof. reflexivity. Qed.

Lemma matcher_AssertStart (x : mstate) (c : cont) :
  matcher AssertStart x c = if Nat.eqb (endIndex x) 0 then c x else None.
Proof. reflexivity. Qed.

Lemma PROPERTIES_REGEX_unfold :
  PROPERTIES_REGEX
  = Seq AssertStart (Seq (Char 45%N) (Seq (Char 45%N) (Seq (Char 45%N)
      (Seq (Repeat 1 None false AnyChar) (cat (map Char CLOSING)))))).
Proof. reflexivity. Qed.

(** The lazy scan for the closing delimiter stops at the first one. *)
Lemma lazy_scan_closing (body : jsstring) (j : nat) :
  lazy_scan anyChar (fun y => matcher (cat (map Char CLOSING)) y Some) j body []
  = match closing body with
    | Some rest => Some (MState (j + length body - length rest) rest [])
    | None => None
    end.
Proof.
  revert j. induction body as [|a t IH]; intros j.
  - reflexivity.
  - cbn [lazy_scan closing]. rewrite matcher_word. cbn [rest endIndex captures].
    change (startsWith (a :: t) [45%N; 45%N; 45%N; 10%N])
      with (startsWith (a :: t) CLOSING).
    destruct (startsWith (a :: t) CLOSING) eqn:Hs.
    + destruct (startsWith_inv _ _ Hs) as [r Hr]. rewrite Hr.
      change (length CLOSING) with 4.
      change (drop 4 (CLOSING ++ r)) with r.
      rewrite length_app. change (length CLOSING) with 4.
      do 2 f_equal. lia.
    + unfold anyChar at 1. rewrite IH. destruct (closing t) as [r|]; [|done].
      do 2 f_equal. cbn [length]. lia.
Qed.

(** The header pattern at index 0, in closed form. *)
Lemma matcher_PROPERTIES (v : jsstring) :
  matcher PROPERTIES_REGEX (MState 0 v []) Some
  = match v with
    | 45%N :: 45%N :: 45%N :: _ :: body =>
      match closing body with
      | Some rest => Some (MState (4 + length body - length rest) rest [])
      | None => None
      end
    | _ => None
    end.
Proof.
  rewrite PROPERTIES_REGEX_unfold, matcher_Seq, matcher_AssertStart.
  cbn [endIndex Nat.eqb].
  destruct v as [|a1 v]; [done|]. rewrite matcher_Seq, matcher_Char.
  destruct (cu_eqb a1 45%N) eqn:H1;
    [apply cu_eqb_eq in H1 as ->|].
  2: { destruct a1 as [|p]; [done|].
       do 7 (destruct p as [p|p|]; try done). }
  destruct v as [|a2 v]; [done|]. rewrite matcher_Seq, matcher_Char.
  destruct (cu_eqb a2 45%N) eqn:H2;
    [apply cu_eqb_eq in H2 as ->|].
  2: { destruct a2 as [|p]; [done|].
       do 7 (destruct p as [p|p|]; try done). }
  destruct v as [|a3 v]; [done|]. rewrite matcher_Seq, matcher_Char.
  destruct (cu_eqb a3 45%N) eqn:H3;
    [apply cu_eqb_eq in H3 as ->|].
  2: { destruct a3 as [|p]; [done|].
       do 7 (destruct p as [p|p|]; try done). }
  rewrite matcher_Seq.
  rewrite (matcher_lazy_plus AnyChar anyChar matcher_AnyChar eq_refl).
  destruct v as [|c body]; [done|]. unfold anyChar at 1.
  rewrite lazy_scan_closing. destruct (closing body); [|done].
  do 2 f_equal.
Qed.

(** [^] fails everywhere but at index 0. *)
Lemma search_PROPERTIES_later (l : jsstring) (i : nat) :
  0 < i -> search PROPERTIES_REGEX i l = None.
Proof.
  revert i. induction l as [|a t IH]; intros i Hi; cbn [search];
    rewrite PROPERTIES_REGEX_unfold, matcher_Seq, matcher_AssertStart;
    cbn [endIndex]; rewrite (proj2 (Nat.eqb_neq i 0)) by lia; [done|].
  rewrite <- PROPERTIES_REGEX_unfold. apply IH. lia.
Qed.

Lemma closing_inv (l rest : jsstring) :
  closing l = Some rest ->
  exists pre, l = pre ++ CLOSING ++ rest
    /\ forall pre' rest', l = pre' ++ CLOSING ++ rest' -> length pre <= length pre'.
Proof.
  revert rest. induction l as [|a t IH]; intros rest; cbn [closing].
  - done.
  - change (startsWith (a :: t) [45%N; 45%N; 45%N; 10%N])
      with (startsWith (a :: t) CLOSING).
    destruct (startsWith (a :: t) CLOSING) eqn:Hs.
    + intros Hrest. assert (Hd : rest = drop 4 (a :: t)) by congruence.
      destruct (startsWith_inv _ _ Hs) as [r Hr]. rewrite Hr in Hd |- *.
      change (drop 4 (CLOSING ++ r)) with r in Hd. subst rest.
      exists []. split; [done|]. intros pre' rest' _. cbn [length]. lia.
    + intros Hc. destruct (IH rest Hc) as (pre & -> & Hmin).
      exists (a :: pre). split; [done|]. intros pre' rest' Heq.
      destruct pre' as [|a' pre'].
      * cbn [app] in Heq. rewrite Heq, startsWith_app in Hs. done.
      * injection Heq as -> Heq. cbn [length]. apply Hmin in Heq. lia.
Qed.


(** The pattern, run by [replace], cuts what the specification says. *)
Lemma replace_by_empty_stripHeader (v : jsstring) :
  replace_by_empty PROPERTIES_REGEX v = stripHeader v.
Proof.
  unfold replace_by_empty.
  assert (Hsearch : search PROPERTIES_REGEX 0 v
            = match matcher PROPERTIES_REGEX (MState 0 v []) Some with
              | Some y => Some (JsMatch 0 (take (endIndex y - 0) v) (captures y))
              | None => None
              end).
  { destruct v as [|a t]; cbn [search];
      destruct (matcher PROPERTIES_REGEX _ Some); try done.
    apply search_PROPERTIES_later. lia. }
  rewrite Hsearch, matcher_PROPERTIES. unfold stripHeader.
  destruct v as [|a1 v]; [done|].
  destruct a1 as [|p1]; [done|]. repeat (destruct p1 as [p1|p1|]; try done).
  destruct v as [|a2 v]; [done|].
  destruct a2 as [|p2]; [done|]. repeat (destruct p2 as [p2|p2|]; try done).
  destruct v as [|a3 v]; [done|].
  destruct a3 as [|p3]; [done|]. repeat (destruct p3 as [p3|p3|]; try done).
  destruct v as [|c body]; [done|].
  destruct (closing body) as [r|] eqn:Hc; [|done].
  destruct (closing_inv _ _ Hc) as (pre & -> & _).
  cbn [index whole endIndex take app]. rewrite Nat.sub_0_r.
  rewrite !length_app. change (length CLOSING) with 4.
  replace (4 + (length pre + (4 + length r)) - length r) with (4 + (length pre + 4)) by lia.
  cbn [Nat.add].
  cbn [take length Nat.add drop].
  rewrite length_take, !length_app. change (length CLOSING) with 4.
  replace (4 + length pre `min` (length pre + (4 + length r))) with (length pre + 4) by lia.
  rewrite app_assoc. rewrite drop_app_length'; [done|].
  rewrite length_app. change (length CLOSING) with 4. lia.
Qed.




(** The pattern cuts one block only: a second header stays. *)
Example second_header_stays :
  replace_by_empty PROPERTIES_REGEX
    (js "---" ++ [LF] ++ js "a" ++ [LF] ++ js "---" ++ [LF]
     ++ js "---" ++ [LF] ++ js "b" ++ [LF] ++ js "---" ++ [LF] ++ js "rest")
  = js "---" ++ [LF] ++ js "b" ++ [LF] ++ js "---" ++ [LF] ++ js "rest".
Proof. vm_compute. reflexivity. Qed.


(** ** Soundness of the matcher *)

Lemma repeatMatcher_reach (r : regex) (fuel : nat) :
  (forall x c z, matcher r x c = Some z -> exists y, reach r x y /\ c y = Some z) ->
  forall min max greedy x c z,
    repeatMatcher fuel (matcher r) (groups_of r) min max greedy x c = Some z ->
    exists y, reach (Repeat min max greedy r) x y /\ c y = Some z.
Proof.
  intros IHr. induction fuel as [|fuel IH]; intros min max greedy x c z; [done|].
  cbn [repeatMatcher].
  assert (Hstop : c x = Some z ->
                  exists y, reach (Repeat min max greedy r) x y /\ c y = Some z).
  { intros Hc. exists x. split; [constructor|done]. }
  assert (Hmore : matcher r (clear_captures (groups_of r) x)
                    (fun y => if Nat.eqb min 0 && Nat.eqb (endIndex y) (endIndex x)
                              then None
                              else repeatMatcher fuel (matcher r) (groups_of r)
                                     (pred min) (option_map pred max) greedy y c)
                  = Some z ->
                  exists y, reach (Repeat min max greedy r) x y /\ c y = Some z).
  { intros Hm. destruct (IHr _ _ _ Hm) as (y1 & Hr1 & Hd).
    destruct (Nat.eqb min 0 && Nat.eqb (endIndex y1) (endIndex x)); [done|].
    destruct (IH _ _ _ _ _ _ Hd) as (y & Hr & Hc).
    exists y. split; [|done]. by eapply reach_Repeat_more. }
  destruct max as [[|n]|]; [exact Hstop| |].
  - destruct (negb (Nat.eqb min 0)); [exact Hmore|].
    destruct greedy.
    + destruct (matcher r _ _) as [z'|] eqn:Hm; [|exact Hstop].
      intros [= <-]. by apply Hmore.
    + destruct (c x) as [z'|] eqn:Hc; [|exact Hmore].
      intros [= <-]. by apply Hstop.
  - destruct (negb (Nat.eqb min 0)); [exact Hmore|].
    destruct greedy.
    + destruct (matcher r _ _) as [z'|] eqn:Hm; [|exact Hstop].
      intros [= <-]. by apply Hmore.
    + destruct (c x) as [z'|] eqn:Hc; [|exact Hmore].
      intros [= <-]. by apply Hstop.
Qed.

(** Whatever the matcher returns went through the continuation, at a state
    the pattern reaches. *)
Lemma matcher_reach (r : regex) (x : mstate) (c : cont) (z : mstate) :
  matcher r x c = Some z -> exists y, reach r x y /\ c y = Some z.
Proof.
  revert x c z. induction r as [|ch| | | |a IHa b IHb|a IHa b IHb|i r IH|min max greedy r IH];
    intros x c z; cbn [matcher].
  - intros Hc. exists x. split; [constructor|done].
  - destruct (rest x) as [|a t] eqn:Hrest; [done|].
    destruct (cu_eqb a ch) eqn:Heq; [|done]. apply cu_eqb_eq in Heq as ->.
    intros Hc. exists (advance x t). split; [by constructor|done].
  - destruct (rest x) as [|a t] eqn:Hrest; [done|].
    destruct (isLineTerminator a) eqn:Hlt; [done|].
    intros Hc. exists (advance x t). split; [by econstructor|done].
  - destruct (rest x) as [|a t] eqn:Hrest; [done|].
    intros Hc. exists (advance x t). split; [by econstructor|done].
  - destruct (Nat.eqb (endIndex x) 0) eqn:H0; [|done]. apply Nat.eqb_eq in H0.
    intros Hc. exists x. split; [by constructor|done].
  - intros Hm. destruct (IHa _ _ _ Hm) as (y & Hy & Hb).
    destruct (IHb _ _ _ Hb) as (y' & Hy' & Hc).
    exists y'. split; [by econstructor|done].
  - destruct (matcher a x c) as [z'|] eqn:Hm.
    + intros [= <-]. destruct (IHa _ _ _ Hm) as (y & Hy & Hc).
      exists y. split; [by constructor|done].
    + intros Hb. destruct (IHb _ _ _ Hb) as (y & Hy & Hc).
      exists y. split; [by apply reach_Alt_r|done].
  - intros Hm. destruct (IH _ _ _ Hm) as (y & Hy & Hc).
    eexists. split; [by constructor|done].
  - by apply repeatMatcher_reach.
Qed.

(** A pattern consumes a prefix of the input and moves the end index by
    its length. *)
Lemma reach_consumes (r : regex) (x y : mstate) :
  reach r x y ->
  exists w, rest x = w ++ rest y /\ endIndex y = endIndex x + length w.
Proof.
  induction 1 as [x|ch x t Hr|a x t Hr Hlt|a x t Hr|x H0|a b x y z _ IH1 _ IH2
                  |a b x y _ IH|a b x y _ IH|i r x y _ IH|min max g r x
                  |min max min' max' g r x y z _ IH1 _ IH2].
  - exists []. split; [done|]. cbn [length]. lia.
  - exists [ch]. cbn [advance rest endIndex length]. split; [done|]. lia.
  - exists [a]. cbn [advance rest endIndex length]. split; [done|]. lia.
  - exists [a]. cbn [advance rest endIndex length]. split; [done|]. lia.
  - exists []. split; [done|]. cbn [length]. lia.
  - destruct IH1 as (w1 & Hw1 & He1). destruct IH2 as (w2 & Hw2 & He2).
    exists (w1 ++ w2). rewrite <- app_assoc, <- Hw2, length_app. split; [done|]. lia.
  - done.
  - done.
  - destruct IH as (w & Hw & He). by exists w.
  - exists []. split; [done|]. cbn [length]. lia.
  - destruct IH1 as (w1 & Hw1 & He1). destruct IH2 as (w2 & Hw2 & He2).
    cbn [clear_captures rest endIndex] in *.
    exists (w1 ++ w2). rewrite <- app_assoc, <- Hw2, length_app. split; [done|]. lia.
Qed.

(** *** Captures along a match *)

Lemma find_filter_ne (i j : nat) (caps : list (nat * jsstring)) :
  i <> j ->
  find (fun p => Nat.eqb (fst p) j)
       (List.filter (fun p => negb (Nat.eqb (fst p) i)) caps)
  = find (fun p => Nat.eqb (fst p) j) caps.
Proof.
  intros Hne. induction caps as [|[k s] caps IH]; [done|].
  cbn [List.filter find fst].
  destruct (Nat.eqb k i) eqn:Hki; cbn [negb].
  - apply Nat.eqb_eq in Hki as ->.
    rewrite (proj2 (Nat.eqb_neq i j)) by done. exact IH.
  - cbn [find fst]. destruct (Nat.eqb k j); [done|exact IH].
Qed.

Lemma capture_set_eq (i : nat) (s : jsstring) (y : mstate) :
  capture (set_capture i s y) i = Some s.
Proof.
  unfold capture, set_capture. cbn [captures find fst]. by rewrite Nat.eqb_refl.
Qed.

Lemma capture_set_ne (i j : nat) (s : jsstring) (y : mstate) :
  i <> j -> capture (set_capture i s y) j = capture y j.
Proof.
  intros Hne. unfold capture, set_capture. cbn [captures find fst].
  rewrite (proj2 (Nat.eqb_neq i j)) by done. by rewrite find_filter_ne.
Qed.

Lemma capture_clear (gs : list nat) (j : nat) (x : mstate) :
  mem_nat j gs = false -> capture (clear_captures gs x) j = capture x j.
Proof.
  intros Hj. unfold capture, clear_captures. cbn [captures]. f_equal.
  induction (captures x) as [|[k s] caps IH]; [done|].
  cbn [List.filter find fst].
  destruct (mem_nat k gs) eqn:Hk; cbn [negb find fst].
  - destruct (Nat.eqb k j) eqn:Hkj; [|exact IH].
    apply Nat.eqb_eq in Hkj as ->. congruence.
  - destruct (Nat.eqb k j); [done|exact IH].
Qed.

Lemma mem_nat_app (j : nat) (l1 l2 : list nat) :
  mem_nat j (l1 ++ l2) = mem_nat j l1 || mem_nat j l2.
Proof. unfold mem_nat. apply existsb_app. Qed.

(** A pattern leaves the captures of the groups it does not hold alone. *)
Lemma reach_capture (r : regex) (x y : mstate) (j : nat) :
  reach r x y -> mem_nat j (groups_of r) = false -> capture y j = capture x j.
Proof.
  induction 1 as [x|ch x t Hr|a x t Hr Hlt|a x t Hr|x H0|a b x y z _ IH1 _ IH2
                  |a b x y _ IH|a b x y _ IH|i r x y _ IH|min max g r x
                  |min max min' max' g r x y z _ IH1 _ IH2];
    cbn [groups_of]; try done.
  - rewrite mem_nat_app, orb_false_iff. intros [H1 H2].
    by rewrite (IH2 H2), (IH1 H1).
  - rewrite mem_nat_app, orb_false_iff. intros [H1 _]. by apply IH.
  - rewrite mem_nat_app, orb_false_iff. intros [_ H2]. by apply IH.
  - unfold mem_nat. cbn [existsb]. rewrite orb_false_iff. intros [Hji Hj].
    apply Nat.eqb_neq in Hji. rewrite capture_set_ne by done. by apply IH.
  - intros Hj. cbn [groups_of] in IH2.
    by rewrite (IH2 Hj), (IH1 Hj), capture_clear.
Qed.

(** A literal word. *)
Lemma reach_word (w : jsstring) (x y : mstate) :
  reach (cat (map Char w)) x y ->
  rest x = w ++ rest y /\ capture y = capture x.
Proof.
  revert x. induction w as [|c w IH]; intros x.
  - cbn. inversion 1; by subst.
  - destruct w as [|c' w].
    + cbn. inversion 1; subst. by cbn.
    + change (cat (map Char (c :: c' :: w)))
        with (Seq (Char c) (cat (map Char (c' :: w)))).
      inversion 1 as [| | | | |a b x0 y0 z0 H1 H2| | | | |]; subst.
      inversion H1 as [|ch x1 t Hx| | | | | | | | |]; subst.
      destruct (IH _ H2) as [Hr Hc].
      cbn [advance rest] in Hr. split; [by rewrite Hx, Hr|done].
Qed.

Lemma reach_Alt_inv (a b : regex) (x y : mstate) :
  reach (Alt a b) x y -> reach a x y \/ reach b x y.
Proof. inversion 1; subst; [by left|by right]. Qed.

Lemma reach_Seq_inv (a b : regex) (x z : mstate) :
  reach (Seq a b) x z -> exists y, reach a x y /\ reach b y z.
Proof. inversion 1; subst. by eexists. Qed.

Lemma reach_Char_inv (ch : cu) (x y : mstate) :
  reach (Char ch) x y -> exists t, rest x = ch :: t /\ y = advance x t.
Proof. inversion 1; subst. by eexists. Qed.

Lemma reach_Group_inv (i : nat) (r : regex) (x z : mstate) :
  reach (Group i r) x z ->
  exists y, reach r x y
            /\ z = set_capture i (take (endIndex y - endIndex x) (rest x)) y.
Proof. inversion 1; subst. by eexists. Qed.

Lemma EXTENSIONS_unfold :
  EXTENSIONS
  = Alt (cat (map Char (js "png"))) (Alt (cat (map Char (js "jpg")))
      (Alt (cat (map Char (js "jpeg"))) (Alt (cat (map Char (js "gif")))
      (Alt (cat (map Char (js "svg"))) (Alt (cat (map Char (js "webp")))
      (cat (map Char (js "excalidraw")))))))).
Proof. reflexivity. Qed.

Lemma reach_EXTENSIONS (x y : mstate) :
  reach EXTENSIONS x y ->
  exists ext, ext ∈ extensions /\ rest x = ext ++ rest y /\ capture y = capture x.
Proof.
  rewrite EXTENSIONS_unfold. unfold extensions.
  assert (Hword : forall w, w ∈ extensions -> reach (cat (map Char w)) x y ->
            exists ext, ext ∈ extensions /\ rest x = ext ++ rest y
                        /\ capture y = capture x).
  { intros w Hw H. apply reach_word in H as [Hr Hc]. by exists w. }
  intros H.
  repeat (apply reach_Alt_inv in H as [H|H];
          [refine (Hword _ _ H); unfold extensions; repeat constructor|]).
  refine (Hword _ _ H). unfold extensions. repeat constructor.
Qed.

(** ** [search] and [matchAll] *)

(** What [search] returns is a match of the pattern at its index, the
    first index from [i] on where there is one. *)
Lemma search_Some (r : regex) (l : jsstring) (i : nat) (m : jsmatch) :
  search r i l = Some m ->
  exists k y,
    k <= length l /\ index m = i + k
    /\ matcher r (MState (i + k) (drop k l) []) Some = Some y
    /\ whole m = take (endIndex y - (i + k)) (drop k l)
    /\ groups m = captures y
    /\ forall k', k' < k -> matcher r (MState (i + k') (drop k' l) []) Some = None.
Proof.
  revert i. induction l as [|a t IH]; intros i; cbn [search].
  - destruct (matcher r (MState i [] []) Some) as [y|] eqn:Hm; [|done].
    intros [= <-]. exists 0, y. rewrite Nat.add_0_r. cbn [drop length index whole groups].
    repeat split; try done; intros k' Hk'; lia.
  - destruct (matcher r (MState i (a :: t) []) Some) as [y|] eqn:Hm.
    + intros [= <-]. exists 0, y. rewrite Nat.add_0_r.
      cbn [drop length index whole groups].
      repeat split; try done; try lia; intros k' Hk'; lia.
    + intros Hs. destruct (IH _ Hs) as (k & y & Hk & Hi & Hy & Hw & Hg & Hfirst).
      exists (S k), y. cbn [drop length].
      replace (i + S k) with (S i + k) by lia.
      repeat split; try done; try lia.
      intros [|k'] Hk'.
      * by rewrite Nat.add_0_r.
      * cbn [drop]. replace (i + S k') with (S i + k') by lia. apply Hfirst. lia.
Qed.


(** Every match of [matchAll_from] is found by a [search] further on. *)
Lemma matchAll_from_elem (fuel : nat) (r : regex) (l : jsstring) (i : nat)
    (m : jsmatch) :
  m ∈ matchAll_from fuel r i l ->
  exists k, k <= length l /\ search r (i + k) (drop k l) = Some m.
Proof.
  revert i l. induction fuel as [|fuel IH]; intros i l; cbn [matchAll_from].
  - intros H. by apply elem_of_nil in H.
  - destruct (search r i l) as [m0|] eqn:Hs.
    2: { intros H. by apply elem_of_nil in H. }
    intros H. apply elem_of_cons in H as [->|H].
    + exists 0. rewrite Nat.add_0_r. split; [lia|done].
    + set (next := if Nat.eqb (length (whole m0)) 0
                   then S (index m0 + length (whole m0))
                   else index m0 + length (whole m0)) in *.
      destruct (length l <? next - i) eqn:Hlt.
      { by apply elem_of_nil in H. }
      apply Nat.ltb_ge in Hlt.
      destruct (IH _ _ H) as (k & Hk & Hk').
      rewrite length_drop in Hk. rewrite drop_drop in Hk'.
      destruct (search_Some _ _ _ _ Hs) as (k0 & _ & _ & Hi0 & _).
      assert (i <= next) by (subst next; destruct (Nat.eqb _ 0); lia).
      exists (next - i + k). split; [lia|].
      by replace (i + (next - i + k)) with (next + k) by lia.
Qed.

(** A match of [matchAll] is a match of the pattern at its index. *)
Lemma matchAll_elem (r : regex) (s : jsstring) (m : jsmatch) :
  m ∈ matchAll r s ->
  index m <= length s
  /\ exists y,
       matcher r (MState (index m) (drop (index m) s) []) Some = Some y
       /\ whole m = take (endIndex y - index m) (drop (index m) s)
       /\ groups m = captures y.
Proof.
  intros H. apply matchAll_from_elem in H as (k & Hk & Hs).
  cbn [Nat.add] in Hs.
  apply search_Some in Hs as (k' & y & Hk' & Hi & Hy & Hw & Hg & _).
  rewrite length_drop in Hk'. rewrite drop_drop in Hy, Hw.
  rewrite <- Hi in Hy, Hw. split; [lia|]. by exists y.
Qed.


Lemma search_hit (r : regex) (l : jsstring) (i : nat) (y : mstate) :
  matcher r (MState i l []) Some = Some y ->
  search r i l = Some (JsMatch i (take (endIndex y - i) l) (captures y)).
Proof. intros H. destruct l; cbn [search]; by rewrite H. Qed.

(** ** The shape of the matches of the two patterns *)

Lemma reach_lineFree (r : regex) (x y : mstate) :
  reach r x y -> lineFree r = true ->
  exists w, rest x = w ++ rest y /\ forallb notLineTerminator w = true.
Proof.
  induction 1 as [x|ch x t Hr|a x t Hr Hlt|a x t Hr|x H0|a b x y z _ IH1 _ IH2
                  |a b x y _ IH|a b x y _ IH|i r x y _ IH|min max g r x
                  |min max min' max' g r x y z _ IH1 _ IH2];
    cbn [lineFree]; rewrite ?andb_true_iff.
  - by exists [].
  - intros Hc. exists [ch]. cbn [advance rest forallb]. by rewrite Hc.
  - intros _. exists [a]. cbn [advance rest forallb]. unfold notLineTerminator.
    by rewrite Hlt.
  - done.
  - by exists [].
  - intros [Ha Hb]. destruct (IH1 Ha) as (w1 & Hw1 & Hf1).
    destruct (IH2 Hb) as (w2 & Hw2 & Hf2). exists (w1 ++ w2).
    rewrite <- app_assoc, <- Hw2, forallb_app, Hf1, Hf2. done.
  - intros [Ha _]. by apply IH.
  - intros [_ Hb]. by apply IH.
  - intros Hr. destruct (IH Hr) as (w & Hw & Hf). by exists w.
  - by exists [].
  - intros Hr. destruct (IH1 Hr) as (w1 & Hw1 & Hf1).
    destruct (IH2 Hr) as (w2 & Hw2 & Hf2). cbn [clear_captures rest] in Hw1.
    exists (w1 ++ w2). rewrite <- app_assoc, <- Hw2, forallb_app, Hf1, Hf2. done.
Qed.

Lemma capture_advance (x : mstate) (t : jsstring) (j : nat) :
  capture (advance x t) j = capture x j.
Proof. reflexivity. Qed.

(** The group that holds a file name: a lazy run of characters, a full
    stop and one of the extensions, itself captured by an inner group. *)
Lemma reach_name_group (i j : nat) (x z : mstate) :
  i <> j ->
  reach (Group i (Seq (Repeat 0 None false Dot)
                      (Seq (Char FULLSTOP) (Group j EXTENSIONS)))) x z ->
  exists stem ext,
    ext ∈ extensions
    /\ rest x = stem ++ FULLSTOP :: ext ++ rest z
    /\ endIndex z = endIndex x + length (stem ++ FULLSTOP :: ext)
    /\ capture z i = Some (stem ++ FULLSTOP :: ext)
    /\ capture z j = Some ext
    /\ (forall k, k <> i -> k <> j -> capture z k = capture x k).
Proof.
  intros Hij H.
  apply reach_Group_inv in H as (y1 & H & ->).
  apply reach_Seq_inv in H as (a & Hstar & H).
  apply reach_Seq_inv in H as (b & Hdot & H).
  apply reach_Char_inv in Hdot as (t & Ha & ->).
  apply reach_Group_inv in H as (y0 & Hext & ->).
  destruct (reach_consumes _ _ _ Hstar) as (stem & Hstem & Hea).
  destruct (reach_consumes _ _ _ Hext) as (w & Hw & Hey).
  destruct (reach_EXTENSIONS _ _ Hext) as (ext & Hin & Hrb & Hcap).
  assert (w = ext) as -> by (eapply app_inv_tail; by rewrite <- Hw, <- Hrb).
  cbn [advance rest endIndex] in *.
  assert (Hx : rest x = (stem ++ FULLSTOP :: ext) ++ rest y0).
  { rewrite Hstem, Ha, Hrb, <- app_assoc. done. }
  exists stem, ext. cbn [set_capture rest endIndex].
  split; [done|]. split; [by rewrite <- app_assoc in Hx|].
  split; [rewrite length_app; cbn [length]; lia|].
  split; [|split].
  - rewrite capture_set_eq. f_equal. rewrite Hx.
    apply take_app_length'. rewrite length_app. cbn [length]. lia.
  - rewrite capture_set_ne by done.
    match goal with |- capture (set_capture j ?s _) j = _ =>
      change (capture (set_capture j s y0) j = Some ext) end.
    rewrite capture_set_eq. f_equal. rewrite Hrb.
    apply take_app_length'. lia.
  - intros k Hki Hkj. rewrite capture_set_ne by done.
    match goal with |- capture (set_capture j ?s _) k = _ =>
      change (capture (set_capture j s y0) k = capture x k) end.
    rewrite capture_set_ne by done. rewrite Hcap, capture_advance.
    apply (reach_capture _ _ _ k Hstar). done.
Qed.

Lemma WIKI_REGEX_unfold :
  WIKI_REGEX
  = Seq (Char 33%N) (Seq (Char 91%N) (Seq (Char 91%N)
      (Seq (Group 1 (Seq (Repeat 0 None false Dot)
                         (Seq (Char FULLSTOP) (Group 2 EXTENSIONS))))
      (Seq (Repeat 0 (Some 1) true (Group 3 (Alt Empty (Repeat 0 None true Dot))))
      (Seq (Char 93%N) (Char 93%N)))))).
Proof. reflexivity. Qed.

Lemma MD_REGEX_unfold :
  MD_REGEX
  = Seq (Char 33%N) (Seq (Char 91%N)
      (Seq (Group 1 (Repeat 0 None true Dot))
      (Seq (Char 93%N) (Seq (Char 40%N)
      (Seq (Group 2 (Seq (Repeat 0 None false Dot)
                         (Seq (Char FULLSTOP) (Group 3 EXTENSIONS))))
           (Char 41%N)))))).
Proof. reflexivity. Qed.

(** What the bracketed-wiki pattern matches: [![[], a name that ends in a
    full stop and an extension, anything, and []]]; group 1 is the name
    and group 2 the extension. *)
Lemma wiki_reach (x y : mstate) :
  reach WIKI_REGEX x y ->
  exists stem ext opt,
    ext ∈ extensions
    /\ rest x = js "![[" ++ stem ++ FULLSTOP :: ext ++ opt ++ js "]]" ++ rest y
    /\ capture y 1 = Some (stem ++ FULLSTOP :: ext)
    /\ capture y 2 = Some ext.
Proof.
  rewrite WIKI_REGEX_unfold. intros H.
  apply reach_Seq_inv in H as (x1 & H1 & H).
  apply reach_Char_inv in H1 as (t1 & Hr1 & ->).
  apply reach_Seq_inv in H as (x2 & H2 & H).
  apply reach_Char_inv in H2 as (t2 & Hr2 & ->).
  apply reach_Seq_inv in H as (x3 & H3 & H).
  apply reach_Char_inv in H3 as (t3 & Hr3 & ->).
  apply reach_Seq_inv in H as (z1 & Hname & H).
  apply reach_Seq_inv in H as (z2 & Hopt & H).
  apply reach_Seq_inv in H as (z3 & H4 & H5).
  apply reach_Char_inv in H4 as (t4 & Hr4 & ->).
  apply reach_Char_inv in H5 as (t5 & Hr5 & ->).
  apply reach_name_group in Hname as (stem & ext & Hin & Hn & _ & Hc1 & Hc2 & _);
    [|done].
  destruct (reach_consumes _ _ _ Hopt) as (opt & Ho & _).
  cbn [advance rest] in *.
  exists stem, ext, opt. split; [done|]. split.
  - rewrite Hr1, Hr2, Hr3, Hn, Ho, Hr4, Hr5.
    change (js "![[") with [33%N; 91%N; 91%N]. change (js "]]") with [93%N; 93%N].
    cbn [app]. by rewrite <- ?app_assoc.
  - rewrite !capture_advance.
    rewrite !(reach_capture _ _ _ _ Hopt) by done. done.
Qed.

(** What the inline-markup pattern matches: [![], the alt text, [](], a
    path that ends in a full stop and an extension, and [)]; group 1 is
    the alt text and group 2 the path. *)
Lemma md_reach (x y : mstate) :
  reach MD_REGEX x y ->
  exists alt stem ext,
    ext ∈ extensions
    /\ rest x = js "![" ++ alt ++ js "](" ++ stem ++ FULLSTOP :: ext ++ js ")" ++ rest y
    /\ capture y 1 = Some alt
    /\ capture y 2 = Some (stem ++ FULLSTOP :: ext).
Proof.
  rewrite MD_REGEX_unfold. intros H.
  apply reach_Seq_inv in H as (x1 & H1 & H).
  apply reach_Char_inv in H1 as (t1 & Hr1 & ->).
  apply reach_Seq_inv in H as (x2 & H2 & H).
  apply reach_Char_inv in H2 as (t2 & Hr2 & ->).
  apply reach_Seq_inv in H as (z1 & Halt & H).
  apply reach_Seq_inv in H as (x3 & H3 & H).
  apply reach_Char_inv in H3 as (t3 & Hr3 & ->).
  apply reach_Seq_inv in H as (x4 & H4 & H).
  apply reach_Char_inv in H4 as (t4 & Hr4 & ->).
  apply reach_Seq_inv in H as (z2 & Hname & H5).
  apply reach_Char_inv in H5 as (t5 & Hr5 & ->).
  apply reach_Group_inv in Halt as (y1 & Halt & ->).
  destruct (reach_consumes _ _ _ Halt) as (alt & Ha & Hea).
  apply reach_name_group in Hname as (stem & ext & Hin & Hn & _ & Hc2 & _ & Hother);
    [|done].
  cbn [advance rest endIndex set_capture] in *.
  exists alt, stem, ext. split; [done|]. split; [|split].
  - rewrite Hr1, Hr2, Ha, Hr3, Hr4, Hn, Hr5.
    change (js "![") with [33%N; 91%N]. change (js "](") with [93%N; 40%N].
    change (js ")") with [41%N]. cbn [app]. by rewrite <- ?app_assoc.
  - rewrite capture_advance, Hother by done. rewrite !capture_advance.
    match goal with |- capture ?st 1 = _ =>
      change (capture (set_capture 1 (take (endIndex y1 - S (S (endIndex x))) t2) y1) 1
              = Some alt) end.
    rewrite capture_set_eq. f_equal. rewrite Ha.
    apply take_app_length'. lia.
  - by rewrite capture_advance.
Qed.

(** ** The reference matcher *)

(** A match of [matchAll] is a stretch of the text that the pattern
    reaches over, starting at its index. *)
Lemma matchAll_elem_reach (r : regex) (s : jsstring) (m : jsmatch) :
  m ∈ matchAll r s ->
  exists y,
    reach r (MState (index m) (drop (index m) s) []) y
    /\ drop (index m) s = whole m ++ rest y
    /\ groups m = captures y
    /\ index m <= length s.
Proof.
  intros H. apply matchAll_elem in H as (Hi & y & Hy & Hw & Hg).
  apply matcher_reach in Hy as (y' & Hr & [= ->]).
  exists y. split; [done|]. split; [|done].
  destruct (reach_consumes _ _ _ Hr) as (w & Hrest & He).
  cbn [rest endIndex] in Hrest, He. rewrite Hw, Hrest.
  f_equal. symmetry. apply take_app_length'. lia.
Qed.

Lemma group_capture (m : jsmatch) (y : mstate) (i : nat) :
  groups m = captures y -> group m (S i) = capture y (S i).
Proof. intros Hg. unfold group, capture. by rewrite Hg. Qed.

(** The matches of the bracketed-wiki pattern. *)
Lemma wiki_match_shape (text : jsstring) (m : jsmatch) :
  m ∈ matchAll WIKI_REGEX text ->
  exists stem ext opt,
    ext ∈ extensions
    /\ whole m = js "![[" ++ stem ++ FULLSTOP :: ext ++ opt ++ js "]]"
    /\ group m 1 = Some (stem ++ FULLSTOP :: ext)
    /\ group m 2 = Some ext.
Proof.
  intros H. apply matchAll_elem_reach in H as (y & Hr & Hd & Hg & _).
  apply wiki_reach in Hr as (stem & ext & opt & Hin & Hrest & Hc1 & Hc2).
  cbn [rest] in Hrest. exists stem, ext, opt. split; [done|].
  rewrite !(group_capture m y) by done. split; [|done].
  rewrite Hd in Hrest. apply (app_inv_tail (rest y)). rewrite Hrest.
  by repeat first [rewrite <- app_assoc | rewrite <- app_comm_cons].
Qed.

(** The matches of the inline-markup pattern. *)
Lemma md_match_shape (text : jsstring) (m : jsmatch) :
  m ∈ matchAll MD_REGEX text ->
  exists alt stem ext,
    ext ∈ extensions
    /\ whole m = js "![" ++ alt ++ js "](" ++ stem ++ FULLSTOP :: ext ++ js ")"
    /\ group m 1 = Some alt
    /\ group m 2 = Some (stem ++ FULLSTOP :: ext).
Proof.
  intros H. apply matchAll_elem_reach in H as (y & Hr & Hd & Hg & _).
  apply md_reach in Hr as (alt & stem & ext & Hin & Hrest & Hc1 & Hc2).
  cbn [rest] in Hrest. exists alt, stem, ext. split; [done|].
  rewrite !(group_capture m y) by done. split; [|done].
  rewrite Hd in Hrest. apply (app_inv_tail (rest y)). rewrite Hrest.
  by repeat first [rewrite <- app_assoc | rewrite <- app_comm_cons].
Qed.




(** The second loop keeps the local matches, in their order. *)
Lemma mdImages_spec (h : Host) (ms : list jsmatch) :
  match mdImages h ms with
  | Ok images => Forall2 (mdImageOf h) (List.filter isLocalMatch ms) images
  | Throw e =>
    e = URIError
    /\ exists m, m ∈ ms /\ isLocalMatch m = true
                 /\ decodeURI h (group_str m 2) = None
  end.
Proof.
  induction ms as [|m ms IH]; cbn [mdImages List.filter]; [constructor|].
  unfold isLocalMatch at 1. destruct (isRemote (group_str m 2)) eqn:Hrem; cbn [negb].
  - destruct (mdImages h ms) as [images|e]; [done|].
    destruct IH as (-> & m' & Hin & Hm'). split; [done|].
    exists m'. split; [by right|done].
  - destruct (decodeURI h (group_str m 2)) as [decodedPath|] eqn:Hdec.
    + destruct (mdImages h ms) as [images|e].
      * constructor; [|done]. by repeat split.
      * destruct IH as (-> & m' & Hin & Hm'). split; [done|].
        exists m'. split; [by right|done].
    + split; [done|]. exists m. split; [by left|].
      unfold isLocalMatch. by rewrite Hrem.
Qed.


(** The groups are not merged by position: the wiki embed of
    [inlineThenWiki] comes first in the list although the inline embed
    comes first in the text. *)
Example wiki_first_though_later_in_text :
  map index (matchAll WIKI_REGEX inlineThenWiki) = [12]
  /\ map index (matchAll MD_REGEX inlineThenWiki) = [0]
  /\ getImageLists (scenarioHost inlineThenWiki [] [])
                   (settings "assets" true false false false) inlineThenWiki
     = Ok [ MkImage (js "c.png") (js "assets/c.png") [] [] (js "![[c.png]]");
            MkImage (js "b.png") (js "b.png") [] [] (js "![a](b.png)") ].
Proof. vm_compute. repeat split. Qed.

(** ** The full path of a drawing *)



(** ** Running the bracketed-wiki pattern forward *)

Lemma matcher_Group (i : nat) (r : regex) (x : mstate) (c : cont) :
  matcher (Group i r) x c
  = matcher r x (fun y => c (set_capture i (take (endIndex y - endIndex x) (rest x)) y)).
Proof. reflexivity. Qed.

Lemma endIndex_set_capture (i : nat) (s : jsstring) (y : mstate) :
  endIndex (set_capture i s y) = endIndex y.
Proof. reflexivity. Qed.

Lemma rest_set_capture (i : nat) (s : jsstring) (y : mstate) :
  rest (set_capture i s y) = rest y.
Proof. reflexivity. Qed.

Lemma matcher_Alt (a b : regex) (x : mstate) (c : cont) :
  matcher (Alt a b) x c
  = match matcher a x c with
    | Some z => Some z
    | None => matcher b x c
    end.
Proof. reflexivity. Qed.

(** The lazy scan passes over [w] when the continuation fails all along
    it and succeeds behind it. *)
Lemma lazy_scan_skip (ok : cu -> bool) (K : cont) (w t : jsstring) (i : nat)
    (caps : list (nat * jsstring)) (z : mstate) :
  forallb ok w = true ->
  (forall w1 c w2, w = w1 ++ c :: w2 ->
     K (MState (i + length w1) (c :: w2 ++ t) caps) = None) ->
  K (MState (i + length w) t caps) = Some z ->
  lazy_scan ok K i (w ++ t) caps = Some z.
Proof.
  revert i. induction w as [|a w IH]; intros i Hok Hfail Hend.
  - cbn [length app] in *. rewrite Nat.add_0_r in Hend.
    destruct t; cbn [lazy_scan]; by rewrite Hend.
  - cbn [forallb] in Hok. apply andb_true_iff in Hok as [Ha Hok].
    cbn [app lazy_scan].
    pose proof (Hfail [] a w eq_refl) as H0. cbn [length] in H0.
    rewrite Nat.add_0_r in H0. rewrite H0, Ha.
    apply IH; [done| |].
    + intros w1 c w2 ->. specialize (Hfail (a :: w1) c w2 eq_refl).
      cbn [length] in Hfail. by replace (S i + length w1) with (i + S (length w1)) by lia.
    + cbn [length] in Hend. by replace (S i + length w) with (i + S (length w)) by lia.
Qed.

(** The greedy scan returns what it finds behind [w], if anything. *)
Lemma greedy_scan_deep (ok : cu -> bool) (K : cont) (w t : jsstring) (i : nat)
    (caps : list (nat * jsstring)) (z : mstate) :
  forallb ok w = true ->
  greedy_scan ok K (i + length w) t caps = Some z ->
  greedy_scan ok K i (w ++ t) caps = Some z.
Proof.
  revert i. induction w as [|a w IH]; intros i Hok Hend.
  - cbn [length app] in *. by rewrite Nat.add_0_r in Hend.
  - cbn [forallb] in Hok. apply andb_true_iff in Hok as [Ha Hok].
    cbn [app greedy_scan]. rewrite Ha, (IH (S i)); [done|done|].
    cbn [length] in Hend. by replace (S i + length w) with (i + S (length w)) by lia.
Qed.

(** No extension starts with another one, so inside a word that goes on
    with [ext] the alternatives match [ext] and nothing else. *)
Lemma matcher_EXTENSIONS_hit (ext t : jsstring) (i : nat)
    (caps : list (nat * jsstring)) (K : cont) :
  ext ∈ extensions ->
  matcher EXTENSIONS (MState i (ext ++ t) caps) K
  = K (MState (length ext + i) t caps).
Proof.
  unfold extensions. intros Hin.
  repeat (apply elem_of_cons in Hin as [->|Hin];
          [vm_compute; destruct (K _); reflexivity|]).
  by apply elem_of_nil in Hin.
Qed.

Lemma matcher_EXTENSIONS_miss (x : mstate) (K : cont) :
  existsb (startsWith (rest x)) extensions = false ->
  matcher EXTENSIONS x K = None.
Proof.
  unfold extensions. cbn [existsb]. rewrite !orb_false_iff.
  intros (H1 & H2 & H3 & H4 & H5 & H6 & H7 & _).
  rewrite EXTENSIONS_unfold, !matcher_Alt, !matcher_word.
  by rewrite H1, H2, H3, H4, H5, H6, H7.
Qed.

Lemma startsWith_app_stop (a b e : jsstring) (d : cu) :
  forallb (fun c => negb (cu_eqb c d)) e = true ->
  startsWith (a ++ d :: b) e = true -> startsWith a e = true.
Proof.
  revert a. induction e as [|x e IH]; intros a; [done|].
  cbn [forallb]. rewrite andb_true_iff, negb_true_iff. intros [Hx He].
  destruct a as [|y a]; cbn [app startsWith].
  - by rewrite Hx.
  - rewrite !andb_true_iff. intros [Hxy Hs]. split; [done|]. by apply IH.
Qed.

Lemma existsb_startsWith_stop (a b : jsstring) :
  existsb (startsWith a) extensions = false ->
  existsb (startsWith (a ++ FULLSTOP :: b)) extensions = false.
Proof.
  intros Ha. apply not_true_is_false. intros Hb.
  apply existsb_exists in Hb as (e & Hin & Hb).
  assert (He : forallb (fun c => negb (cu_eqb c FULLSTOP)) e = true).
  { unfold extensions in Hin. cbn [In] in Hin.
    repeat (destruct Hin as [<-|Hin]; [reflexivity|]). done. }
  apply (startsWith_app_stop _ _ _ _ He) in Hb.
  assert (existsb (startsWith a) extensions = true); [|congruence].
  apply existsb_exists. by exists e.
Qed.

Lemma mentionsExtension_app (w1 w2 : jsstring) :
  mentionsExtension (w1 ++ FULLSTOP :: w2) = false ->
  existsb (startsWith w2) extensions = false.
Proof.
  induction w1 as [|a w1 IH]; cbn [app mentionsExtension];
    rewrite orb_false_iff; intros [H1 H2].
  - by rewrite cu_eqb_refl in H1.
  - by apply IH.
Qed.

(** The group of the name, run on a name without an earlier extension:
    the lazy scan stops behind [nm], and the continuation is entered with
    the name in group [i] and the extension in group [j]. *)
Lemma name_group_forward (i j i0 : nat) (nm ext t : jsstring)
    (caps : list (nat * jsstring)) (K : cont) (z : mstate) :
  ext ∈ extensions ->
  forallb notLineTerminator nm = true ->
  mentionsExtension nm = false ->
  K (set_capture i (nm ++ FULLSTOP :: ext)
       (set_capture j ext
          (MState (length ext + S (i0 + length nm)) t caps))) = Some z ->
  matcher (Group i (Seq (Repeat 0 None false Dot)
                        (Seq (Char FULLSTOP) (Group j EXTENSIONS))))
          (MState i0 (nm ++ FULLSTOP :: ext ++ t) caps) K
  = Some z.
Proof.
  intros Hin Hnm Hment HK.
  rewrite matcher_Group, matcher_Seq.
  rewrite (matcher_lazy_star Dot notLineTerminator matcher_Dot eq_refl).
  apply lazy_scan_skip; [done| |].
  - intros w1 c w2 ->. rewrite matcher_Seq, matcher_Char.
    destruct (cu_eqb c FULLSTOP) eqn:Hc; [|done].
    apply cu_eqb_eq in Hc as ->. rewrite matcher_Group.
    apply matcher_EXTENSIONS_miss. cbn [rest].
    apply existsb_startsWith_stop. by eapply mentionsExtension_app.
  - rewrite matcher_Seq, matcher_Char, cu_eqb_refl, matcher_Group.
    rewrite matcher_EXTENSIONS_hit by done. cbn [endIndex rest].
    replace (length ext + S (i0 + length nm) - S (i0 + length nm))
      with (length ext) by lia.
    rewrite take_app_length, endIndex_set_capture. cbn [endIndex].
    replace (length ext + S (i0 + length nm) - i0)
      with (length (nm ++ FULLSTOP :: ext)) by (rewrite length_app; cbn [length]; lia).
    replace (nm ++ FULLSTOP :: ext ++ t) with ((nm ++ FULLSTOP :: ext) ++ t)
      by (by rewrite <- app_assoc).
    rewrite take_app_length. exact HK.
Qed.

(** A greedy [?] on a state with input left: the atom is tried first and
    may not match the empty string; otherwise it is skipped. *)
Lemma matcher_optional (r : regex) (x : mstate) (K : cont) :
  rest x <> [] ->
  matcher (Repeat 0 (Some 1) true r) x K
  = match matcher r (clear_captures (groups_of r) x)
            (fun y => if Nat.eqb (endIndex y) (endIndex x) then None else K y) with
    | Some z => Some z
    | None => K x
    end.
Proof.
  intros Hrest. cbn [matcher].
  destruct (rest x) as [|a t]; [done|]. cbn [length Nat.add].
  replace (length t + 1) with (S (length t)) by lia. reflexivity.
Qed.

Lemma notLineTerminator_bracket : notLineTerminator 93%N = true.
Proof. reflexivity. Qed.

(** The optional group and the closing brackets, run on a suffix without
    line terminators that is followed by the closing brackets and the end
    of the input: the match ends at the end of the input. *)
Lemma wiki_tail_forward (suffix : jsstring) (i : nat)
    (caps : list (nat * jsstring)) :
  forallb notLineTerminator suffix = true ->
  exists y,
    matcher WIKI_TAIL (MState i (suffix ++ [93; 93]%N) caps) Some = Some y
    /\ endIndex y = i + length suffix + 2
    /\ rest y = [].
Proof.
  intros Hsuffix. unfold WIKI_TAIL. rewrite matcher_Seq.
  rewrite matcher_optional by (cbn [rest]; by destruct suffix).
  unfold WIKI_GROUP3. rewrite matcher_Group, matcher_Alt.
  unfold clear_captures. cbn [endIndex rest captures].
  match goal with
  | |- context [List.filter ?f caps] => set (caps' := List.filter f caps)
  end.
  assert (Hempty : matcher Empty (MState i (suffix ++ [93; 93]%N) caps')
            (fun y => if Nat.eqb (endIndex (set_capture 3
                           (take (endIndex y - i) (suffix ++ [93; 93]%N)) y)) i
                      then None
                      else matcher (Seq (Char 93%N) (Char 93%N))
                             (set_capture 3
                                (take (endIndex y - i) (suffix ++ [93; 93]%N)) y) Some)
            = None).
  { cbn [matcher]. rewrite endIndex_set_capture. cbn [endIndex].
    by rewrite Nat.eqb_refl. }
  rewrite Hempty. clear Hempty.
  rewrite (matcher_greedy_star Dot notLineTerminator matcher_Dot eq_refl).
  destruct suffix as [|a suffix].
  - (* nothing behind the name: the group is skipped *)
    cbn [app greedy_scan]. rewrite !notLineTerminator_bracket.
    rewrite !endIndex_set_capture. cbn [endIndex].
    rewrite Nat.eqb_refl.
    rewrite (proj2 (Nat.eqb_neq (S i) i)) by lia.
    rewrite (proj2 (Nat.eqb_neq (S (S i)) i)) by lia.
    eexists. split; [reflexivity|]. cbn [advance endIndex rest length].
    split; [lia|done].
  - (* the scan runs to the end and comes back to the closing brackets *)
    match goal with
    | |- context [greedy_scan _ ?k _ _ _] => set (K := k)
    end.
    assert (Hdeep : exists y,
              greedy_scan notLineTerminator K (i + length (a :: suffix))
                          [93; 93]%N caps' = Some y
              /\ endIndex y = i + length (a :: suffix) + 2 /\ rest y = []).
    { cbn [greedy_scan]. rewrite !notLineTerminator_bracket. subst K. cbn beta.
      rewrite !endIndex_set_capture. cbn [endIndex].
      rewrite (proj2 (Nat.eqb_neq (S (S (i + length (a :: suffix)))) i)) by lia.
      rewrite (proj2 (Nat.eqb_neq (S (i + length (a :: suffix))) i)) by lia.
      rewrite (proj2 (Nat.eqb_neq (i + length (a :: suffix)) i))
        by (cbn [length]; lia).
      eexists. split; [reflexivity|].
      cbn [advance set_capture endIndex rest]. split; [lia|done]. }
    destruct Hdeep as (y & Hy & He & Hr).
    exists y. split; [|done].
    by rewrite (greedy_scan_deep _ _ _ _ _ _ y Hsuffix Hy).
Qed.

(** ** Trailing characters inside a wiki embed *)

Lemma WIKI_REGEX_tail :
  WIKI_REGEX
  = Seq (Char 33%N) (Seq (Char 91%N) (Seq (Char 91%N)
      (Seq (Group 1 (Seq (Repeat 0 None false Dot)
                         (Seq (Char FULLSTOP) (Group 2 EXTENSIONS))))
           WIKI_TAIL))).
Proof. reflexivity. Qed.

(** The pattern, run at the start of an embed that is the whole input. *)
Lemma wiki_embed_forward (nm ext suffix : jsstring) :
  ext ∈ extensions ->
  forallb notLineTerminator nm = true ->
  forallb notLineTerminator suffix = true ->
  mentionsExtension nm = false ->
  let text := js "![[" ++ nm ++ FULLSTOP :: ext ++ suffix ++ js "]]" in
  exists y,
    matcher WIKI_REGEX (MState 0 text []) Some = Some y
    /\ endIndex y = length text
    /\ capture y 1 = Some (nm ++ FULLSTOP :: ext).
Proof.
  intros Hin Hnm Hsuffix Hment text.
  set (st := set_capture 1 (nm ++ FULLSTOP :: ext)
               (set_capture 2 ext
                  (MState (length ext + S (3 + length nm))
                          (suffix ++ js "]]") []))).
  destruct (wiki_tail_forward suffix (endIndex st) (captures st) Hsuffix)
    as (y & Hy & He & _).
  change (MState (endIndex st) (suffix ++ [93; 93]%N) (captures st)) with st in Hy.
  exists y. split; [|split].
  - subst text. change (js "![[") with [33%N; 91%N; 91%N]. cbn [app].
    rewrite WIKI_REGEX_tail.
    rewrite matcher_Seq, matcher_Char, cu_eqb_refl.
    rewrite matcher_Seq, matcher_Char, cu_eqb_refl.
    rewrite matcher_Seq, matcher_Char, cu_eqb_refl.
    rewrite matcher_Seq.
    apply name_group_forward; done.
  - rewrite He. subst st text. cbn [set_capture endIndex].
    rewrite !length_app. cbn [length]. rewrite !length_app.
    change (length (js "![[")) with 3. change (length (js "]]")) with 2. lia.
  - apply matcher_reach in Hy as (y' & Hr & [= ->]).
    rewrite (reach_capture _ _ _ 1 Hr) by reflexivity.
    subst st. apply capture_set_eq.
Qed.

Lemma search_WIKI_at_end (i : nat) : search WIKI_REGEX i [] = None.
Proof. reflexivity. Qed.

(** C10 (as amended). Take an embed [![[name.ext suffix]]] that is the whole
    text, with [ext] one of the seven extensions, no line terminator in
    [name] or [suffix], no full stop followed by an extension inside
    [name], and no []]] inside [suffix]. The wiki scan finds one match: it
    starts at index 0, its text is the whole embed (the suffix included,
    whether or not it begins with a bar), and its name is [name.ext].
    [getImageLists] returns a list headed by the reference made from this
    match; the one exception is a text in which the inline scan finds a
    match that is not remote and on whose path [decodeURI] throws: then
    [getImageLists] throws that URIError. *)
Theorem wiki_embed_with_suffix
    (h : Host) (s : PublishSettings) (nm ext suffix : jsstring) :
  ext ∈ extensions ->
  forallb notLineTerminator nm = true ->
  forallb notLineTerminator suffix = true ->
  mentionsExtension nm = false ->
  absent (js "]]") suffix = true ->
  let text := js "![[" ++ nm ++ FULLSTOP :: ext ++ suffix ++ js "]]" in
  exists m,
    matchAll WIKI_REGEX text = [m]
    /\ index m = 0
    /\ name (wikiImage s m) = nm ++ FULLSTOP :: ext
    /\ source (wikiImage s m) = text
    /\ ((exists inline, getImageLists h s text = Ok (wikiImage s m :: inline))
        \/ (getImageLists h s text = Throw URIError
            /\ exists md, md ∈ matchAll MD_REGEX text
                          /\ isLocalMatch md = true
                          /\ decodeURI h (group_str md 2) = None)).
Proof.
  intros Hin Hnm Hsuffix Hment _ text.
  destruct (wiki_embed_forward nm ext suffix Hin Hnm Hsuffix Hment)
    as (y & Hy & He & Hc).
  fold text in Hy, He.
  set (m := JsMatch 0 text (captures y)).
  assert (Htext : exists a t, text = a :: t).
  { subst text. change (js "![[") with [33%N; 91%N; 91%N]. cbn [app]. by eexists _, _. }
  assert (Hsearch : search WIKI_REGEX 0 text = Some m).
  { rewrite (search_hit _ _ _ _ Hy), He, Nat.sub_0_r. by rewrite firstn_all. }
  assert (Hall : matchAll WIKI_REGEX text = [m]).
  { unfold matchAll. cbn [matchAll_from]. rewrite Hsearch.
    cbn [index whole m]. cbn [Nat.add].
    destruct Htext as (a & t & Ht).
    assert (Hlen : Nat.eqb (length text) 0 = false)
      by (rewrite Ht; reflexivity).
    rewrite Hlen, Nat.sub_0_r, Nat.ltb_irrefl.
    rewrite drop_all. by rewrite search_WIKI_at_end. }
  exists m. split; [done|]. split; [done|].
  assert (Hname : name (wikiImage s m) = nm ++ FULLSTOP :: ext).
  { unfold wikiImage, group_str. cbn [name].
    change (group m 1) with (capture y 1). by rewrite Hc. }
  split; [done|]. split; [done|].
  unfold getImageLists. rewrite Hall.
  pose proof (mdImages_spec h (matchAll MD_REGEX text)) as Hmd.
  destruct (mdImages h (matchAll MD_REGEX text)) as [inline|e].
  - left. by exists inline.
  - right. destruct Hmd as (-> & Hmd). by split.
Qed.

Lemma wiki_embed_with_suffix_witness :
  exists m,
    matchAll WIKI_REGEX (js "![[a.pngx100]]") = [m]
    /\ index m = 0
    /\ name (wikiImage (settings "assets" true false false false) m) = js "a.png"
    /\ source (wikiImage (settings "assets" true false false false) m)
       = js "![[a.pngx100]]"
    /\ exists inline,
         getImageLists (scenarioHost [] [] [])
                       (settings "assets" true false false false)
                       (js "![[a.pngx100]]")
         = Ok (wikiImage (settings "assets" true false false false) m :: inline).
Proof.
  pose proof (wiki_embed_with_suffix (scenarioHost [] [] [])
                (settings "assets" true false false false)
                (js "a") (js "png") (js "x100")
                ltac:(unfold extensions; repeat constructor)
                eq_refl eq_refl eq_refl eq_refl) as H.
  cbv zeta in H.
  change (js "![[" ++ js "a" ++ FULLSTOP :: js "png" ++ js "x100" ++ js "]]")
    with (js "![[a.pngx100]]") in H.
  destruct H as (m & Hall & Hi & Hn & Hs & Hlist).
  exists m. repeat split; try assumption.
  destruct Hlist as [Hok|[Hthrow _]]; [exact Hok|].
  exfalso. unfold getImageLists in Hthrow. rewrite Hall in Hthrow.
  assert (Hmd : mdImages (scenarioHost [] [] []) (matchAll MD_REGEX (js "![[a.pngx100]]"))
                = Ok []) by (vm_compute; reflexivity).
  rewrite Hmd in Hthrow. discriminate.
Defined.

(** C10 (as stated, refuted). With the name [a.png.b] and the extension
    [jpg] the reference is called [a.png], not [a.png.b.jpg]; with a line
    feed in the suffix, which holds no []]], there is no reference; and
    when the name opens an inline embed whose path holds a malformed
    escape, the matcher throws and there is no list at all. *)
Lemma suffix_claim_fails :
  getImageLists (scenarioHost [] [] []) (settings "assets" true false false false)
                (js "![[" ++ js "a.png.b" ++ js "." ++ js "jpg" ++ [] ++ js "]]")
  = Ok [ MkImage (js "a.png") (js "assets/a.png") [] [] (js "![[a.png.b.jpg]]") ]
  /\ js "a.png" <> js "a.png.b" ++ js "." ++ js "jpg"
  /\ getImageLists (scenarioHost [] [] []) (settings "assets" true false false false)
                   (js "![[" ++ js "a" ++ js "." ++ js "png"
                    ++ (js "|" ++ [LF] ++ js "100") ++ js "]]")
     = Ok []
  /\ getImageLists (scenarioHost [] [] []) (settings "assets" true false false false)
                   (js "![[" ++ js "![x](%zz" ++ js "." ++ js "png"
                    ++ js ")" ++ js "]]")
     = Throw URIError.
Proof. vm_compute. repeat split. discriminate. Qed.

(** ** The scans find every embed *)










(** ** The list of references *)








(** * Further properties of the processor *)

(** ** Texts without embeds *)

Lemma matcher_WIKI_no_bang (i : nat) (l : jsstring) (caps : list (nat * jsstring))
    (K : cont) :
  match l with a :: _ => cu_eqb a BANG = false | [] => True end ->
  matcher WIKI_REGEX (MState i l caps) K = None.
Proof.
  rewrite WIKI_REGEX_unfold, matcher_Seq, matcher_Char.
  destruct l as [|a t]; [done|]. unfold BANG. by intros ->.
Qed.

Lemma matcher_MD_no_bang (i : nat) (l : jsstring) (caps : list (nat * jsstring))
    (K : cont) :
  match l with a :: _ => cu_eqb a BANG = false | [] => True end ->
  matcher MD_REGEX (MState i l caps) K = None.
Proof.
  rewrite MD_REGEX_unfold, matcher_Seq, matcher_Char.
  destruct l as [|a t]; [done|]. unfold BANG. by intros ->.
Qed.

Lemma search_no_bang (r : regex) (l : jsstring) (i : nat) :
  (forall i l caps K,
     match l with a :: _ => cu_eqb a BANG = false | [] => True end ->
     matcher r (MState i l caps) K = None) ->
  noBang l = true -> search r i l = None.
Proof.
  intros Hr. unfold noBang. revert i.
  induction l as [|a t IH]; intros i; cbn [forallb search].
  - intros _. by rewrite Hr.
  - rewrite andb_true_iff, negb_true_iff. intros [Ha Ht].
    rewrite Hr by done. by apply IH.
Qed.

Lemma getImageLists_no_bang (h : Host) (s : PublishSettings) (text : jsstring) :
  noBang text = true -> getImageLists h s text = Ok [].
Proof.
  intros Hno. unfold getImageLists, matchAll. cbn [matchAll_from].
  rewrite (search_no_bang WIKI_REGEX text 0 matcher_WIKI_no_bang Hno).
  by rewrite (search_no_bang MD_REGEX text 0 matcher_MD_no_bang Hno).
Qed.

Lemma settleAll_nil (h : Host) (schedule : list nat) :
  settleAll h [] schedule = ([], []).
Proof.
  unfold settleAll. cbn [length replicate].
  induction schedule as [|i schedule IH]; [done|]. exact IH.
Qed.

(** A run without references goes straight to the rewriter. *)
Lemma process_no_images (h : Host) (s : PublishSettings) (schedule : list nat)
    (action : jsstring) :
  getImageLists h s (getValue h) = Ok [] ->
  process h s schedule action = rewriter h s action (getValue h) [].
Proof.
  intros Hget. unfold process. rewrite Hget. cbn [resolveAll].
  rewrite settleAll_nil. cbn [promiseAll app].
  by destruct (rewriter h s action (getValue h) []).
Qed.

(** X1. A note without an exclamation mark holds no embed: whatever the
    schedule, [PUBLISH] looks up and uploads nothing, writes the text back
    unchanged when replacing is enabled, and copies it, without its header
    block when stripping is enabled. *)
Theorem text_without_embeds_passes_through
    (h : Host) (s : PublishSettings) (schedule : list nat) (text : jsstring) :
  activeDoc h = Some text ->
  noBang text = true ->
  process h s schedule ACTION_PUBLISH
  = {| events :=
         (if replaceOriginalDoc s then [ESetValue text] else [])
         ++ [ EClipboard (if ignoreProperties s then stripHeader text else text);
              ENotice (js "Copied to clipboard") ];
       settled := Fulfilled |}.
Proof.
  intros Hdoc Hno.
  assert (Hval : getValue h = text) by (unfold getValue; by rewrite Hdoc).
  rewrite process_no_images by (rewrite Hval; by apply getImageLists_no_bang).
  unfold rewriter. cbn [rewrite app]. rewrite Hval, Hdoc.
  rewrite replace_by_empty_stripHeader. unfold dispatch.
  rewrite str_eqb_refl. cbn [events settled]. done.
Qed.

Lemma text_without_embeds_passes_through_witness :
  process (scenarioHost (js "plain text") [] []) (settings "assets" true true true true)
          [] ACTION_PUBLISH
  = {| events := [ ESetValue (js "plain text"); EClipboard (js "plain text");
                   ENotice (js "Copied to clipboard") ];
       settled := Fulfilled |}.
Proof.
  exact (text_without_embeds_passes_through
           (scenarioHost (js "plain text") [] [])
           (settings "assets" true true true true) [] (js "plain text")
           eq_refl eq_refl).
Defined.

(** X2. Without an active markdown editor [getValue] is the empty string:
    the run touches no file and no editor, and what it does is what the
    dispatcher does with the empty text - [PUBLISH] copies the empty
    string, any other action rejects. *)
Theorem no_active_editor
    (h : Host) (s : PublishSettings) (schedule : list nat) (action : jsstring) :
  activeDoc h = None ->
  process h s schedule action = dispatch action [].
Proof.
  intros Hdoc.
  assert (Hval : getValue h = []) by (unfold getValue; by rewrite Hdoc).
  rewrite process_no_images by (rewrite Hval; by apply getImageLists_no_bang).
  unfold rewriter. cbn [rewrite app]. rewrite Hval, Hdoc.
  assert (Hstrip : (if ignoreProperties s then replace_by_empty PROPERTIES_REGEX []
                    else []) = []).
  { rewrite replace_by_empty_stripHeader. by destruct (ignoreProperties s). }
  rewrite Hstrip. destruct (replaceOriginalDoc s); by destruct (dispatch action []).
Qed.

Lemma no_active_editor_witness :
  process (MkHost None [] id id (fun _ => false) id id id
                  (fun _ _ _ => Failed []) Some)
          (settings "assets" true true true true) [] ACTION_PUBLISH
  = {| events := [EClipboard []; ENotice (js "Copied to clipboard")];
       settled := Fulfilled |}.
Proof.
  exact (no_active_editor
           (MkHost None [] id id (fun _ => false) id id id
                   (fun _ _ _ => Failed []) Some)
           (settings "assets" true true true true) [] ACTION_PUBLISH eq_refl).
Defined.

(** ** Where the embeds lie *)

(** X3. A match of either pattern is a non-empty stretch of the text that
    starts at its index, lies within the text and holds no line
    terminator: an embed never runs over the end of a line. *)
Theorem embed_is_a_line_fragment (text : jsstring) (m : jsmatch) :
  m ∈ matchAll WIKI_REGEX text \/ m ∈ matchAll MD_REGEX text ->
  take (length (whole m)) (drop (index m) text) = whole m
  /\ index m + length (whole m) <= length text
  /\ whole m <> []
  /\ forallb notLineTerminator (whole m) = true.
Proof.
  intros Hm.
  assert (H : exists r, m ∈ matchAll r text /\ lineFree r = true
                        /\ (m ∈ matchAll r text -> whole m <> [])).
  { destruct Hm as [Hm|Hm].
    - exists WIKI_REGEX. split; [done|]. split; [reflexivity|].
      intros H. apply wiki_match_shape in H as (stem & ext & opt & _ & -> & _).
      done.
    - exists MD_REGEX. split; [done|]. split; [reflexivity|].
      intros H. apply md_match_shape in H as (alt & stem & ext & _ & -> & _).
      done. }
  destruct H as (r & Hin & Hfree & Hne).
  destruct (matchAll_elem_reach _ _ _ Hin) as (y & Hr & Hd & _ & Hi).
  destruct (reach_lineFree _ _ _ Hr Hfree) as (w & Hw & Hlf).
  cbn [rest] in Hw. rewrite Hd in Hw. apply app_inv_tail in Hw as <-.
  split; [by rewrite Hd, take_app_length|]. split; [|split; [by apply Hne|done]].
  apply (f_equal length) in Hd. rewrite length_drop, length_app in Hd. lia.
Qed.

Lemma embed_is_a_line_fragment_witness :
  forallb notLineTerminator
    (whole (JsMatch 12 (js "![[c.png]]") [(1, js "c.png"); (2, js "png")])) = true.
Proof.
  refine (proj2 (proj2 (proj2 (embed_is_a_line_fragment inlineThenWiki _ _)))).
  left. vm_compute. left.
Defined.

(** ** [replaceAll] *)

Lemma replaceAll_scan_plain (w1 w2 search template l : jsstring) (p1 p2 k : nat) :
  plain template = true ->
  replaceAll_scan w1 search template p1 l k
  = replaceAll_scan w2 search template p2 l k.
Proof.
  intros Hplain. revert p1 p2 k.
  induction l as [|c l IH]; intros p1 p2 k; cbn [replaceAll_scan]; [done|].
  destruct k as [|k]; [|apply IH].
  destruct (startsWith (c :: l) search).
  - rewrite !getSubstitution_plain by done. f_equal. apply IH.
  - f_equal. apply IH.
Qed.

Lemma replaceAll_scan_skip (w search template l : jsstring) (p k : nat) :
  replaceAll_scan w search template p l k
  = replaceAll_scan w search template (p + k) (drop k l) 0.
Proof.
  revert p k. induction l as [|c l IH]; intros p k.
  - by rewrite drop_nil.
  - destruct k as [|k].
    + by rewrite Nat.add_0_r.
    + cbn [replaceAll_scan drop]. rewrite IH. by replace (S p + k) with (p + S k) by lia.
Qed.

(** With a replacement that holds no [$], [replaceAll] goes through the
    text from the left. *)
Lemma replaceAll_plain (search template : jsstring) :
  search <> [] ->
  plain template = true ->
  replaceAll [] search template = []
  /\ (forall s, startsWith s search = true ->
        replaceAll s search template
        = template ++ replaceAll (drop (length search) s) search template)
  /\ (forall c s, startsWith (c :: s) search = false ->
        replaceAll (c :: s) search template
        = c :: replaceAll s search template).
Proof.
  intros Hne Hplain. destruct search as [|x xs]; [done|].
  unfold replaceAll. split; [done|]. split.
  - intros s Hs. destruct s as [|c s]; [done|].
    cbn [replaceAll_scan]. rewrite Hs, getSubstitution_plain by done. f_equal.
    rewrite replaceAll_scan_skip. cbn [length Nat.sub drop].
    rewrite Nat.sub_0_r. apply replaceAll_scan_plain. done.
  - intros c s Hs. cbn [replaceAll_scan]. rewrite Hs. f_equal.
    apply replaceAll_scan_plain. done.
Qed.

(** X4. When the tag of a reference holds no [$], substituting the
    reference goes through the text from the left: where the raw span
    starts, the tag is put and the scan goes on behind the occurrence;
    elsewhere the character is kept. So every occurrence that does not
    overlap an earlier one is replaced by exactly the tag, and the rest of
    the text is untouched. *)
Theorem substitute_plain (h : Host) (s : PublishSettings) (image : Image) :
  source image <> [] ->
  plain (markdownTag (altTextOf h s image) (url image)) = true ->
  substitute h s [] image = []
  /\ (forall value, startsWith value (source image) = true ->
        substitute h s value image
        = markdownTag (altTextOf h s image) (url image)
          ++ substitute h s (drop (length (source image)) value) image)
  /\ (forall c value, startsWith (c :: value) (source image) = false ->
        substitute h s (c :: value) image = c :: substitute h s value image).
Proof.
  intros Hne Hplain. unfold substitute. by apply replaceAll_plain.
Qed.

Lemma substitute_plain_witness :
  substitute hostTwo (settings "assets" true false false false) (js "![[a.png]]")
             (MkImage (js "a.png") (js "assets/a.png") (js "assets/a.png")
                      (js "https://cdn/a.png") (js "![[a.png]]"))
  = js "![a](https://cdn/a.png)".
Proof.
  destruct (substitute_plain hostTwo (settings "assets" true false false false)
              (MkImage (js "a.png") (js "assets/a.png") (js "assets/a.png")
                       (js "https://cdn/a.png") (js "![[a.png]]"))
              ltac:(discriminate) eq_refl)
    as (Hnil & Hhit & _).
  etransitivity; [exact (Hhit (js "![[a.png]]") eq_refl)|].
  etransitivity; [exact (f_equal (app _) Hnil)|].
  vm_compute. reflexivity.
Defined.

Lemma replaceAll_scan_absent (w search template l : jsstring) (p : nat) :
  absent search l = true ->
  replaceAll_scan w search template p l 0 = l.
Proof.
  revert p. induction l as [|c l IH]; intros p; cbn [absent replaceAll_scan]; [done|].
  rewrite andb_true_iff, negb_true_iff. intros [-> Hl]. f_equal. by apply IH.
Qed.

(** X5. Substituting a reference whose raw span does not occur in the text
    leaves the text as it is, whatever the url and the alt text: the
    rewriter does nothing to a text that holds no raw span any more. *)
Theorem substitute_absent (h : Host) (s : PublishSettings) (value : jsstring)
    (image : Image) :
  source image <> [] ->
  absent (source image) value = true ->
  substitute h s value image = value.
Proof.
  intros Hne Habs. unfold substitute, replaceAll.
  destruct (source image) as [|x xs]; [done|].
  by apply replaceAll_scan_absent.
Qed.

Lemma substitute_absent_witness :
  substitute hostTwo (settings "assets" true false false false)
             (js "![a](https://cdn/a.png)")
             (MkImage (js "a.png") (js "assets/a.png") (js "assets/a.png")
                      (js "https://cdn/a.png") (js "![[a.png]]"))
  = js "![a](https://cdn/a.png)".
Proof.
  apply substitute_absent; [discriminate|reflexivity].
Defined.

(** ** The loop over the references *)

Lemma resolveAll_shape (h : Host) (images : list Image) :
  resolveAll h images
  = (flat_map (submitEvents h) (locatedPrefix h images)
     ++ match firstMiss h images with
        | Some bad => missEvents h bad
        | None => []
        end,
     map (resolved h) (locatedPrefix h images)).
Proof.
  induction images as [|image more IH]; cbn [resolveAll locatedPrefix firstMiss]; [done|].
  destruct (located h image); [|done].
  rewrite IH. cbn [flat_map map]. by rewrite <- app_assoc.
Qed.

Lemma filter_isUpload_submit (h : Host) (l : list Image) :
  List.filter isUpload (flat_map (submitEvents h) l) = map (uploadEvent h) l.
Proof.
  induction l as [|image l IH]; [done|]. cbn [flat_map map].
  rewrite List.filter_app, IH. done.
Qed.

(** X6. The loop starts one upload for every reference up to the first
    whose file is missing, in the order of the references and without
    looking at whether two of them name the same file; it warns exactly
    when a file is missing. *)
Theorem uploads_of_the_located_prefix (h : Host) (images : list Image) :
  (resolveAll h images).2 = map (resolved h) (locatedPrefix h images)
  /\ List.filter isUpload (resolveAll h images).1
     = map (uploadEvent h) (locatedPrefix h images)
  /\ (forallb (located h) images = true ->
      locatedPrefix h images = images
      /\ (resolveAll h images).1 = flat_map (submitEvents h) images).
Proof.
  rewrite resolveAll_shape. cbn [fst snd]. split; [done|]. split.
  - rewrite List.filter_app, filter_isUpload_submit.
    destruct (firstMiss h images); by rewrite ?app_nil_r.
  - intros Hall.
    assert (Hp : locatedPrefix h images = images /\ firstMiss h images = None).
    { induction images as [|image more IH]; [done|].
      cbn [forallb] in Hall. apply andb_true_iff in Hall as [Hi Hm].
      cbn [locatedPrefix firstMiss]. rewrite Hi.
      destruct (IH Hm) as [-> ->]. done. }
    destruct Hp as [-> ->]. by rewrite app_nil_r.
Qed.

Lemma uploads_of_the_located_prefix_witness :
  List.filter isUpload
    (resolveAll hostSameTwice
       [wikiImage (settings "assets" true false false false) (wikiMatchOf "a.png");
        wikiImage (settings "assets" true false false false) (wikiMatchOf "a.png")]).1
  = [ EUpload (js "a.png") (js "assets/a.png") (js "/vault/assets/a.png");
      EUpload (js "a.png") (js "assets/a.png") (js "/vault/assets/a.png") ].
Proof.
  rewrite (proj1 (proj2 (uploads_of_the_located_prefix hostSameTwice _))).
  vm_compute. reflexivity.
Defined.

(** ** Uploads that fail or never answer *)

Lemma settleOne_events_grow (h : Host) (submitted : list Image)
    (st : promises * list event) (i : nat) (e : event) :
  e ∈ st.2 -> e ∈ (settleOne h submitted st i).2.
Proof.
  intros He. unfold settleOne. destruct (submitted !! i) as [image|]; [|done].
  destruct (uploadOf h image); [done|]. cbn [snd]. apply elem_of_app. by left.
Qed.

Lemma settle_fold_events_grow (h : Host) (submitted : list Image)
    (schedule : list nat) (st : promises * list event) (e : event) :
  e ∈ st.2 -> e ∈ (foldl (settleOne h submitted) st schedule).2.
Proof.
  revert st. induction schedule as [|j schedule IH]; intros st He; [done|].
  cbn [foldl]. apply IH. by apply settleOne_events_grow.
Qed.

Lemma settle_fold_notice (h : Host) (submitted : list Image)
    (schedule : list nat) (st : promises * list event)
    (i : nat) (image : Image) (message : jsstring) :
  submitted !! i = Some image ->
  uploadOf h image = Failed message ->
  i ∈ schedule ->
  failureNotice image message ∈ (foldl (settleOne h submitted) st schedule).2.
Proof.
  intros Hi Hfail. revert st.
  induction schedule as [|j schedule IH]; intros st Hin.
  - by apply elem_of_nil in Hin.
  - cbn [foldl]. apply elem_of_cons in Hin as [<-|Hin]; [|by apply IH].
    apply settle_fold_events_grow. unfold settleOne. rewrite Hi, Hfail.
    cbn [snd]. apply elem_of_app. right. by left.
Qed.

Lemma settle_fold_no_rewriter_effect (h : Host) (submitted : list Image)
    (schedule : list nat) (st : promises * list event) :
  List.filter isRewriterEffect st.2 = [] ->
  List.filter isRewriterEffect (foldl (settleOne h submitted) st schedule).2 = [].
Proof.
  revert st. induction schedule as [|j schedule IH]; intros st Hst; [done|].
  cbn [foldl]. apply IH. unfold settleOne.
  destruct (submitted !! j) as [image|]; [|done].
  destruct (uploadOf h image); [done|]. cbn [snd].
  by rewrite List.filter_app, Hst.
Qed.

Lemma resolveAll_no_rewriter_effect (h : Host) (images : list Image) :
  List.filter isRewriterEffect (resolveAll h images).1 = [].
Proof.
  rewrite resolveAll_shape. cbn [fst]. rewrite List.filter_app.
  assert (H1 : List.filter isRewriterEffect
                 (flat_map (submitEvents h) (locatedPrefix h images)) = []).
  { induction (locatedPrefix h images) as [|image l IH]; [done|].
    cbn [flat_map]. by rewrite List.filter_app, IH. }
  rewrite H1. by destruct (firstMiss h images).
Qed.

(** X7. When the transport rejects the upload of a submitted reference,
    then whatever the order in which the uploads settle and whatever the
    other uploads do, the promise of [process] never settles and the
    rewriter has no effect: nothing is deleted, written back or copied.
    The warning for the rejected upload is shown once it has settled. *)
Theorem rejected_upload_never_settles
    (h : Host) (s : PublishSettings) (schedule : list nat) (action : jsstring)
    (images : list Image) (i : nat) (image : Image) (message : jsstring) :
  getImageLists h s (getValue h) = Ok images ->
  (resolveAll h images).2 !! i = Some image ->
  uploadOf h image = Failed message ->
  settled (process h s schedule action) = Pending
  /\ List.filter isRewriterEffect (events (process h s schedule action)) = []
  /\ (i ∈ schedule ->
      failureNotice image message ∈ events (process h s schedule action)).
Proof.
  intros Hget Hi Hfail.
  destruct (resolveAll h images) as [evs0 submitted] eqn:Hres. cbn [snd] in Hi.
  rewrite (failed_upload_blocks h s schedule action images submitted evs0 i image
             message Hget Hres Hi Hfail).
  cbn [settled events]. split; [done|]. split.
  - rewrite List.filter_app.
    pose proof (resolveAll_no_rewriter_effect h images) as H0.
    rewrite Hres in H0. cbn [fst] in H0. rewrite H0.
    unfold settleAll. by apply settle_fold_no_rewriter_effect.
  - intros Hin. apply elem_of_app. right. unfold settleAll.
    by eapply settle_fold_notice.
Qed.

Lemma rejected_upload_never_settles_witness :
  settled (process hostFailingA (settings "assets" true true true false) [1; 0]
                   ACTION_PUBLISH) = Pending.
Proof.
  pose (s := settings "assets" true true true false).
  pose (images := [wikiImage s (wikiMatchOf "a.png"); wikiImage s (wikiMatchOf "b.png")]).
  assert (Hget : getImageLists hostFailingA s (getValue hostFailingA) = Ok images)
    by (vm_compute; reflexivity).
  assert (Hi : (resolveAll hostFailingA images).2 !! 0
               = Some (resolved hostFailingA (wikiImage s (wikiMatchOf "a.png"))))
    by (vm_compute; reflexivity).
  assert (Hfail : uploadOf hostFailingA
                    (resolved hostFailingA (wikiImage s (wikiMatchOf "a.png")))
                  = Failed (js "500"))
    by (vm_compute; reflexivity).
  exact (proj1 (rejected_upload_never_settles hostFailingA s [1; 0] ACTION_PUBLISH
                  images 0 _ _ Hget Hi Hfail)).
Defined.

Lemma settle_fold_unanswered (h : Host) (submitted : list Image)
    (schedule : list nat) (st : promises * list event) (i : nat) :
  i ∉ schedule ->
  st.1 !! i = Some None ->
  (foldl (settleOne h submitted) st schedule).1 !! i = Some None.
Proof.
  revert st. induction schedule as [|j schedule IH]; intros st Hnot Hst; [done|].
  cbn [foldl]. apply not_elem_of_cons in Hnot as [Hne Hnot].
  apply IH; [done|]. unfold settleOne.
  destruct (submitted !! j) as [image|]; [|done].
  destruct (uploadOf h image); [|done]. cbn [fst].
  by rewrite list_lookup_insert_ne.
Qed.

(** X8. There is no timeout: when one of the submitted uploads never
    answers, the promise of [process] never settles and the rewriter has no
    effect, although every other upload may have succeeded. *)
Theorem unanswered_upload_never_settles
    (h : Host) (s : PublishSettings) (schedule : list nat) (action : jsstring)
    (images : list Image) (i : nat) :
  getImageLists h s (getValue h) = Ok images ->
  i < length (resolveAll h images).2 ->
  i ∉ schedule ->
  settled (process h s schedule action) = Pending
  /\ List.filter isRewriterEffect (events (process h s schedule action)) = [].
Proof.
  intros Hget Hi Hnot. unfold process. rewrite Hget.
  pose proof (resolveAll_no_rewriter_effect h images) as H0.
  destruct (resolveAll h images) as [evs0 submitted]. cbn [fst snd] in *.
  pose proof (settle_fold_unanswered h submitted schedule
                (replicate (length submitted) None, []) i Hnot
                (lookup_replicate_2 _ _ _ Hi)) as Hp.
  pose proof (settle_fold_no_rewriter_effect h submitted schedule
                (replicate (length submitted) None, []) eq_refl) as He.
  unfold settleAll. destruct (foldl _ _ schedule) as [ps evs1].
  cbn [fst snd] in *. rewrite (promiseAll_pending ps i Hp).
  cbn [settled events]. split; [done|]. by rewrite List.filter_app, H0, He.
Qed.

Lemma unanswered_upload_never_settles_witness :
  settled (process hostTwo (settings "assets" true true true false) [0]
                   ACTION_PUBLISH) = Pending.
Proof.
  pose (s := settings "assets" true true true false).
  pose (images := [wikiImage s (wikiMatchOf "a.png"); wikiImage s (wikiMatchOf "b.png")]).
  assert (Hget : getImageLists hostTwo s (getValue hostTwo) = Ok images)
    by (vm_compute; reflexivity).
  assert (Hi : 1 < length (resolveAll hostTwo images).2) by (vm_compute; lia).
  assert (Hnot : 1 ∉ [0]).
  { intros H. apply elem_of_cons in H as [H|H]; [discriminate H|].
    by apply elem_of_nil in H. }
  exact (proj1 (unanswered_upload_never_settles hostTwo s [0] ACTION_PUBLISH
                  images 1 Hget Hi Hnot)).
Defined.

(** ** Errors *)

(** X9. An unknown action is found out last: when the rewriter is reached,
    the attachments are deleted (if enabled) and the rewritten text is
    written into the editor (if enabled) before the promise of [process]
    rejects with [invalid action!]. *)
Theorem invalid_action_after_effects
    (h : Host) (s : PublishSettings) (schedule : list nat) (action : jsstring)
    (images submitted : list Image) (evs0 : list event) :
  getImageLists h s (getValue h) = Ok images ->
  resolveAll h images = (evs0, submitted) ->
  allUploaded h submitted = true ->
  covers schedule (length submitted) = true ->
  action <> ACTION_PUBLISH ->
  let results := map (uploadedImage h) submitted in
  process h s schedule action
  = {| events :=
         evs0
         ++ (if deleteAttachments s
             then map (fun image => EDelete (fullPath image)) results
             else [])
         ++ (if replaceOriginalDoc s then
               match activeDoc h with
               | Some _ => [ESetValue (foldl (substitute h s) (getValue h) results)]
               | None => []
               end
             else []);
       settled := Rejected (Error (js "invalid action!")) |}.
Proof.
  intros Hget Hres Hall Hcov Hact results.
  rewrite (process_success h s schedule action images submitted evs0 Hget Hres Hall Hcov).
  cbn zeta. unfold rewriter. fold results.
  pose proof (rewrite_text h s (getValue h) results) as Htext.
  pose proof (rewrite_deletions h s (getValue h) results) as Hdel.
  destruct (rewrite h s (getValue h) results) as [v evs]. cbn [fst snd] in *.
  subst v evs. unfold dispatch.
  destruct (str_eqb action ACTION_PUBLISH) eqn:He.
  { by apply str_eqb_eq in He. }
  cbn [events settled]. by rewrite app_nil_r.
Qed.

Lemma invalid_action_after_effects_witness :
  process hostTwo (settings "assets" true true true false) [0; 1] (js "ARCHIVE")
  = {| events :=
         (resolveAll hostTwo
            [wikiImage (settings "assets" true true true false) (wikiMatchOf "a.png");
             wikiImage (settings "assets" true true true false) (wikiMatchOf "b.png")]).1
         ++ [ EDelete (js "assets/a.png"); EDelete (js "assets/b.png");
              ESetValue (js "![a](https://cdn/a.png)" ++ [LF]
                         ++ js "![b](https://cdn/b.png)") ];
       settled := Rejected (Error (js "invalid action!")) |}.
Proof.
  pose (s := settings "assets" true true true false).
  pose (images := [wikiImage s (wikiMatchOf "a.png"); wikiImage s (wikiMatchOf "b.png")]).
  assert (Hget : getImageLists hostTwo s (getValue hostTwo) = Ok images)
    by (vm_compute; reflexivity).
  assert (Hres : resolveAll hostTwo images
                 = ((resolveAll hostTwo images).1, (resolveAll hostTwo images).2))
    by (vm_compute; reflexivity).
  assert (Hall : allUploaded hostTwo (resolveAll hostTwo images).2 = true)
    by (vm_compute; reflexivity).
  assert (Hcov : covers [0; 1] (length (resolveAll hostTwo images).2) = true)
    by (vm_compute; reflexivity).
  assert (Hact : js "ARCHIVE" <> ACTION_PUBLISH) by (vm_compute; discriminate).
  pose proof (invalid_action_after_effects hostTwo s [0; 1] (js "ARCHIVE") images _ _
                Hget Hres Hall Hcov Hact) as H.
  subst s images. rewrite H. vm_compute. reflexivity.
Defined.

Lemma mdImages_throws (h : Host) (ms : list jsmatch) (m : jsmatch) :
  m ∈ ms -> isLocalMatch m = true -> decodeURI h (group_str m 2) = None ->
  mdImages h ms = Throw URIError.
Proof.
  intros Hin Hloc Hdec. unfold isLocalMatch in Hloc. apply negb_true_iff in Hloc.
  pose proof (mdImages_spec h ms) as Hspec.
  induction ms as [|m' ms IH]; [by apply elem_of_nil in Hin|].
  cbn [mdImages] in *. apply elem_of_cons in Hin as [<-|Hin].
  - by rewrite Hloc, Hdec.
  - assert (Hrec : mdImages h ms = Throw URIError).
    { apply IH; [done|]. apply mdImages_spec. }
    rewrite Hrec. destruct (isRemote (group_str m' 2)); [done|].
    by destruct (decodeURI h (group_str m' 2)).
Qed.

(** X10. When [decodeURI] throws on the path of an inline embed that is not
    remote, [process] rejects with that URIError before it has looked up,
    uploaded, deleted, written or copied anything - also for the wiki
    embeds of the same note. *)
Theorem malformed_escape_aborts_the_run
    (h : Host) (s : PublishSettings) (schedule : list nat) (action : jsstring)
    (m : jsmatch) :
  m ∈ matchAll MD_REGEX (getValue h) ->
  isLocalMatch m = true ->
  decodeURI h (group_str m 2) = None ->
  process h s schedule action = {| events := []; settled := Rejected URIError |}.
Proof.
  intros Hin Hloc Hdec. unfold process, getImageLists.
  by rewrite (mdImages_throws h _ m Hin Hloc Hdec).
Qed.

Lemma malformed_escape_aborts_the_run_witness :
  process hostBadEscape (settings "assets" true true true false) [0] ACTION_PUBLISH
  = {| events := []; settled := Rejected URIError |}.
Proof.
  apply (malformed_escape_aborts_the_run hostBadEscape _ _ _
           (JsMatch 11 (js "![x](%zz.png)")
              [(2, js "%zz.png"); (3, js "png"); (1, js "x")])).
  - vm_compute. left.
  - reflexivity.
  - reflexivity.
Defined.

(** X11. When every inline embed of the text is remote (its path starts
    with [http://] or [https://]), the list is that of the wiki embeds
    alone and [decodeURI] is not consulted: no escape in a remote path can
    make the matcher throw. *)
Theorem remote_inline_embeds_are_skipped
    (h : Host) (s : PublishSettings) (text : jsstring) :
  forallb (fun m => isRemote (group_str m 2)) (matchAll MD_REGEX text) = true ->
  getImageLists h s text = Ok (map (wikiImage s) (matchAll WIKI_REGEX text)).
Proof.
  intros Hrem. unfold getImageLists.
  assert (Hmd : mdImages h (matchAll MD_REGEX text) = Ok []).
  { induction (matchAll MD_REGEX text) as [|m ms IH]; [done|].
    cbn [forallb] in Hrem. apply andb_true_iff in Hrem as [Hm Hms].
    cbn [mdImages]. rewrite Hm. by apply IH. }
  by rewrite Hmd, app_nil_r.
Qed.

Lemma remote_inline_embeds_are_skipped_witness :
  getImageLists (scenarioHost [] [] []) (settings "assets" true false false false)
                (js "![alt](http://ex.com/%zz/a.png)")
  = Ok [].
Proof.
  exact (remote_inline_embeds_are_skipped (scenarioHost [] [] [])
           (settings "assets" true false false false)
           (js "![alt](http://ex.com/%zz/a.png)") eq_refl).
Defined.

(** ** What is deleted *)

Lemma filter_nil_not_elem (f : event -> bool) (l : list event) (e : event) :
  List.filter f l = [] -> e ∈ l -> f e = false.
Proof.
  intros Hf He. apply not_true_is_false. intros Hfe.
  assert (Hin : In e (List.filter f l)).
  { apply filter_In. split; [by apply list_elem_of_In|done]. }
  by rewrite Hf in Hin.
Qed.

Lemma locatedPrefix_elem (h : Host) (images : list Image) (image : Image) :
  image ∈ locatedPrefix h images -> image ∈ images /\ located h image = true.
Proof.
  induction images as [|x images IH]; cbn [locatedPrefix].
  - intros H. by apply elem_of_nil in H.
  - destruct (located h x) eqn:Hx; [|intros H; by apply elem_of_nil in H].
    intros H. apply elem_of_cons in H as [->|H].
    + split; [by left|done].
    + destruct (IH H). split; [by right|done].
Qed.

Lemma settle_fold_resolved (h : Host) (submitted : list Image)
    (schedule : list nat) (st : promises * list event) :
  (forall i v, st.1 !! i = Some (Some v) ->
     exists image u, submitted !! i = Some image
                     /\ uploadOf h image = Uploaded u /\ v = withUrl image u) ->
  forall i v, (foldl (settleOne h submitted) st schedule).1 !! i = Some (Some v) ->
    exists image u, submitted !! i = Some image
                    /\ uploadOf h image = Uploaded u /\ v = withUrl image u.
Proof.
  revert st. induction schedule as [|j schedule IH]; intros st Hst; [done|].
  cbn [foldl]. apply IH. intros i v. unfold settleOne.
  destruct (submitted !! j) as [image|] eqn:Hj; [|by apply Hst].
  destruct (uploadOf h image) as [u|msg] eqn:Hu; [|by apply Hst].
  cbn [fst]. destruct (decide (j = i)) as [->|Hne].
  - intros Hi. apply list_lookup_insert_Some in Hi as [(_ & Hv & _)|(Hne & _)]; [|done].
    injection Hv as <-. by exists image, u.
  - rewrite list_lookup_insert_ne by done. by apply Hst.
Qed.

Lemma promiseAll_elem (ps : promises) (results : list Image) (v : Image) :
  promiseAll ps = Some results -> v ∈ results ->
  exists i, ps !! i = Some (Some v).
Proof.
  revert results. induction ps as [|p ps IH]; intros results; cbn [promiseAll].
  - intros [= <-] H. by apply elem_of_nil in H.
  - destruct p as [x|]; [|done].
    destruct (promiseAll ps) as [vs|]; [|done].
    intros [= <-] H. apply elem_of_cons in H as [->|H].
    + by exists 0.
    + destruct (IH vs eq_refl H) as (i & Hi). by exists (S i).
Qed.

(** X12. Whatever the run, a file is deleted only when deleting is enabled,
    and then it is the file of a reference of the note whose file was
    found and whose upload the transport answered with a URL. *)
Theorem deletes_only_uploaded_files
    (h : Host) (s : PublishSettings) (schedule : list nat) (action p : jsstring) :
  EDelete p ∈ events (process h s schedule action) ->
  deleteAttachments s = true
  /\ exists images image imgUrl,
       getImageLists h s (getValue h) = Ok images
       /\ image ∈ images
       /\ located h image = true
       /\ uploadOf h (resolved h image) = Uploaded imgUrl
       /\ p = fullPath (resolved h image).
Proof.
  unfold process.
  destruct (getImageLists h s (getValue h)) as [images|e] eqn:Hget.
  2: { intros H. by apply elem_of_nil in H. }
  pose proof (resolveAll_no_rewriter_effect h images) as H0.
  pose proof (resolveAll_shape h images) as Hshape.
  destruct (resolveAll h images) as [evs0 submitted]. cbn [fst] in H0.
  apply pair_equal_spec in Hshape as [_ Hsub].
  pose proof (settle_fold_no_rewriter_effect h submitted schedule
                (replicate (length submitted) None, []) eq_refl) as H1.
  pose proof (settle_fold_resolved h submitted schedule
                (replicate (length submitted) None, [])) as Hinv.
  unfold settleAll. destruct (foldl _ _ schedule) as [ps evs1]. cbn [fst snd] in *.
  assert (Hno : forall l, List.filter isRewriterEffect l = [] -> EDelete p ∈ l -> False).
  { intros l Hl Hin. by pose proof (filter_nil_not_elem _ _ _ Hl Hin). }
  destruct (promiseAll ps) as [results|] eqn:Hall; cbn [events].
  2: { intros H. apply elem_of_app in H as [H|H]; exfalso;
       [by apply (Hno evs0)|by apply (Hno evs1)]. }
  intros H. apply elem_of_app in H as [H|H]; [exfalso; by apply (Hno evs0)|].
  apply elem_of_app in H as [H|H]; [exfalso; by apply (Hno evs1)|].
  unfold rewriter in H.
  pose proof (rewrite_deletions h s (getValue h) results) as Hdel.
  destruct (rewrite h s (getValue h) results) as [v evs]. cbn [snd events] in *.
  apply elem_of_app in H as [H|H].
  - rewrite Hdel in H. destruct (deleteAttachments s); [|by apply elem_of_nil in H].
    split; [done|]. apply list_elem_of_fmap in H as (r & [= ->] & Hr).
    destruct (promiseAll_elem _ _ _ Hall Hr) as (i & Hi).
    destruct (Hinv ltac:(intros i' v' Hl; apply lookup_replicate in Hl as [Hl _];
                         discriminate Hl) i r Hi)
      as (image' & u & Hi' & Hu & ->).
    rewrite Hsub in Hi'. apply list_elem_of_lookup_2 in Hi'.
    apply list_elem_of_fmap in Hi' as (image & -> & Himage).
    apply locatedPrefix_elem in Himage as [Hin Hloc].
    by exists images, image, u.
  - exfalso. apply elem_of_app in H as [H|H].
    + destruct (replaceOriginalDoc s); [|by apply elem_of_nil in H].
      destruct (activeDoc h); [|by apply elem_of_nil in H].
      apply elem_of_cons in H as [H|H]; [done|by apply elem_of_nil in H].
    + unfold dispatch in H. destruct (str_eqb action ACTION_PUBLISH); cbn [events] in H.
      * apply elem_of_cons in H as [H|H]; [done|].
        apply elem_of_cons in H as [H|H]; [done|by apply elem_of_nil in H].
      * by apply elem_of_nil in H.
Qed.

Lemma deletes_only_uploaded_files_witness :
  deleteAttachments (settings "assets" true true false false) = true
  /\ exists images image imgUrl,
       getImageLists hostTwo (settings "assets" true true false false)
                     (getValue hostTwo) = Ok images
       /\ image ∈ images
       /\ located hostTwo image = true
       /\ uploadOf hostTwo (resolved hostTwo image) = Uploaded imgUrl
       /\ js "assets/b.png" = fullPath (resolved hostTwo image).
Proof.
  apply (deletes_only_uploaded_files hostTwo (settings "assets" true true false false)
           [1; 0] ACTION_PUBLISH (js "assets/b.png")).
  vm_compute. do 9 right. left.
Defined.

(** ** What is copied *)

Lemma promiseAll_Some (ps : promises) (results : list Image) :
  promiseAll ps = Some results -> ps = map Some results.
Proof.
  revert results. induction ps as [|p ps IH]; intros results; cbn [promiseAll].
  - by intros [= <-].
  - destruct p as [x|]; [|done].
    destruct (promiseAll ps) as [vs|]; [|done].
    intros [= <-]. cbn [map]. by rewrite (IH vs eq_refl).
Qed.

Lemma settle_fold_length (h : Host) (submitted : list Image)
    (schedule : list nat) (st : promises * list event) :
  length (foldl (settleOne h submitted) st schedule).1 = length st.1.
Proof.
  revert st. induction schedule as [|j schedule IH]; intros st; [done|].
  cbn [foldl]. rewrite IH. unfold settleOne.
  destruct (submitted !! j) as [image|]; [|done].
  destruct (uploadOf h image); [|done]. cbn [fst]. by rewrite length_insert.
Qed.

(** When [Promise.all] resolves, every submitted upload has succeeded and
    the values are the submitted images with their urls, in the order of
    submission. *)
Lemma promiseAll_settleAll (h : Host) (submitted : list Image)
    (schedule : list nat) (results : list Image) :
  promiseAll (settleAll h submitted schedule).1 = Some results ->
  allUploaded h submitted = true
  /\ results = map (uploadedImage h) submitted
  /\ (settleAll h submitted schedule).2 = [].
Proof.
  intros Hall. apply promiseAll_Some in Hall.
  pose proof (settle_fold_length h submitted schedule
                (replicate (length submitted) None, [])) as Hlen.
  pose proof (settle_fold_resolved h submitted schedule
                (replicate (length submitted) None, [])
                ltac:(intros i' v' Hl; apply lookup_replicate in Hl as [Hl _];
                      discriminate Hl)) as Hinv.
  unfold settleAll in *. cbn [fst] in Hlen. rewrite length_replicate in Hlen.
  rewrite Hall in Hlen, Hinv. rewrite length_map in Hlen.
  assert (Hup : forall i image, submitted !! i = Some image ->
            exists u, uploadOf h image = Uploaded u
                      /\ results !! i = Some (withUrl image u)).
  { intros i image Hi.
    destruct (lookup_lt_is_Some_2 results i) as [v Hv].
    { rewrite Hlen. by eapply lookup_lt_Some. }
    destruct (Hinv i v) as (image' & u & Hi' & Hu & ->).
    { by rewrite list_lookup_fmap, Hv. }
    rewrite Hi in Hi'. injection Hi' as <-. by exists u. }
  split; [|split].
  - unfold allUploaded. apply forallb_forall. intros image Hin.
    apply list_elem_of_In, list_elem_of_lookup_1 in Hin as (i & Hi).
    destruct (Hup i image Hi) as (u & Hu & _). by rewrite Hu.
  - apply list_eq. intros i. rewrite list_lookup_fmap.
    destruct (submitted !! i) as [image|] eqn:Hi.
    + destruct (Hup i image Hi) as (u & Hu & Hr). rewrite Hr. cbn.
      unfold uploadedImage. by rewrite Hu.
    + apply lookup_ge_None_1 in Hi. apply lookup_ge_None_2. lia.
  - assert (Hev : forall sch (st : promises * list event),
              allUploaded h submitted = true ->
              (foldl (settleOne h submitted) st sch).2 = st.2).
    { intros sch. induction sch as [|j sch IHs]; intros st Hok; [done|].
      cbn [foldl]. rewrite IHs by done. unfold settleOne.
      destruct (submitted !! j) as [image|] eqn:Hj; [|done].
      unfold allUploaded in Hok. rewrite forallb_forall in Hok.
      specialize (Hok image ltac:(apply list_elem_of_In; by eapply list_elem_of_lookup_2)).
      by destruct (uploadOf h image). }
    rewrite Hev; [done|].
    unfold allUploaded. apply forallb_forall. intros image Hin.
    apply list_elem_of_In, list_elem_of_lookup_1 in Hin as (i & Hi).
    destruct (Hup i image Hi) as (u & Hu & _). by rewrite Hu.
Qed.

(** X13. Whatever the run, a text is copied to the clipboard only for the
    action [PUBLISH], only when every submitted upload has succeeded, and
    it is then the text of the note with all the submitted references
    substituted in the order of submission, without its header block when
    stripping is enabled; the promise of [process] is then fulfilled. *)
Theorem copies_only_the_fully_rewritten_text
    (h : Host) (s : PublishSettings) (schedule : list nat) (action t : jsstring) :
  EClipboard t ∈ events (process h s schedule action) ->
  action = ACTION_PUBLISH
  /\ settled (process h s schedule action) = Fulfilled
  /\ exists images,
       getImageLists h s (getValue h) = Ok images
       /\ allUploaded h (resolveAll h images).2 = true
       /\ let text := foldl (substitute h s) (getValue h)
                            (map (uploadedImage h) (resolveAll h images).2) in
          t = if ignoreProperties s then stripHeader text else text.
Proof.
  unfold process.
  destruct (getImageLists h s (getValue h)) as [images|e] eqn:Hget.
  2: { intros H. by apply elem_of_nil in H. }
  pose proof (resolveAll_no_rewriter_effect h images) as H0.
  destruct (resolveAll h images) as [evs0 submitted] eqn:Hra. cbn [fst snd] in *.
  pose proof (settle_fold_no_rewriter_effect h submitted schedule
                (replicate (length submitted) None, []) eq_refl) as H1.
  pose proof (promiseAll_settleAll h submitted schedule) as Hres.
  unfold settleAll in *. destruct (foldl _ _ schedule) as [ps evs1]. cbn [fst snd] in *.
  assert (Hno : forall l, List.filter isRewriterEffect l = [] -> EClipboard t ∈ l -> False).
  { intros l Hl Hin. by pose proof (filter_nil_not_elem _ _ _ Hl Hin). }
  destruct (promiseAll ps) as [results|] eqn:Hall; cbn [events settled].
  2: { intros H. apply elem_of_app in H as [H|H]; exfalso;
       [by apply (Hno evs0)|by apply (Hno evs1)]. }
  destruct (Hres results eq_refl) as (Hok & -> & _).
  intros H. apply elem_of_app in H as [H|H]; [exfalso; by apply (Hno evs0)|].
  apply elem_of_app in H as [H|H]; [exfalso; by apply (Hno evs1)|].
  unfold rewriter in *.
  pose proof (rewrite_deletions h s (getValue h) (map (uploadedImage h) submitted)) as Hdel.
  pose proof (rewrite_text h s (getValue h) (map (uploadedImage h) submitted)) as Htext.
  destruct (rewrite h s (getValue h) (map (uploadedImage h) submitted)) as [v evs].
  cbn [fst snd events settled] in *. subst v.
  assert (Hd : action = ACTION_PUBLISH
               /\ t = (if ignoreProperties s
                       then replace_by_empty PROPERTIES_REGEX
                              (foldl (substitute h s) (getValue h)
                                     (map (uploadedImage h) submitted))
                       else foldl (substitute h s) (getValue h)
                                  (map (uploadedImage h) submitted))).
  { apply elem_of_app in H as [H|H].
    { exfalso. rewrite Hdel in H. destruct (deleteAttachments s);
        [|by apply elem_of_nil in H].
      by apply list_elem_of_fmap in H as (r & Hr & _). }
    apply elem_of_app in H as [H|H].
    { exfalso. destruct (replaceOriginalDoc s); [|by apply elem_of_nil in H].
      destruct (activeDoc h); [|by apply elem_of_nil in H].
      apply elem_of_cons in H as [H|H]; [done|by apply elem_of_nil in H]. }
    unfold dispatch in H.
    destruct (str_eqb action ACTION_PUBLISH) eqn:Hact; cbn [events] in H;
      [|by apply elem_of_nil in H].
    apply str_eqb_eq in Hact. split; [done|].
    apply elem_of_cons in H as [[= ->]|H]; [done|].
    apply elem_of_cons in H as [H|H]; [done|by apply elem_of_nil in H]. }
  destruct Hd as [-> ->]. split; [done|]. split.
  - unfold dispatch. by rewrite str_eqb_refl.
  - exists images. rewrite Hra. cbn [snd]. split; [done|]. split; [done|].
    cbn zeta. by rewrite replace_by_empty_stripHeader.
Qed.

Lemma copies_only_the_fully_rewritten_text_witness :
  settled (process hostTwo (settings "assets" true false false false) [1; 0]
                   ACTION_PUBLISH) = Fulfilled.
Proof.
  refine (proj1 (proj2 (copies_only_the_fully_rewritten_text hostTwo
                          (settings "assets" true false false false) [1; 0]
                          ACTION_PUBLISH
                          (js "![a](https://cdn/a.png)" ++ [LF]
                           ++ js "![b](https://cdn/b.png)") _))).
  vm_compute. do 8 right. left.
Defined.

(** ** Embeds on one line *)

(** The wiki scan of a text that is one embed from its first to its last
    character. *)
Lemma wiki_embed_matchAll (nm ext suffix : jsstring) :
  ext ∈ extensions ->
  forallb notLineTerminator nm = true ->
  forallb notLineTerminator suffix = true ->
  mentionsExtension nm = false ->
  let text := js "![[" ++ nm ++ FULLSTOP :: ext ++ suffix ++ js "]]" in
  exists caps,
    matchAll WIKI_REGEX text = [JsMatch 0 text caps]
    /\ group (JsMatch 0 text caps) 1 = Some (nm ++ FULLSTOP :: ext).
Proof.
  intros Hin Hnm Hsuffix Hment text.
  destruct (wiki_embed_forward nm ext suffix Hin Hnm Hsuffix Hment)
    as (y & Hy & He & Hc).
  fold text in Hy, He. exists (captures y). split; [|exact Hc].
  assert (Hlen : Nat.eqb (length text) 0 = false).
  { subst text. change (js "![[") with [33%N; 91%N; 91%N]. reflexivity. }
  unfold matchAll. cbn [matchAll_from].
  rewrite (search_hit _ _ _ _ Hy), He, Nat.sub_0_r, firstn_all.
  cbn [index whole Nat.add].
  rewrite Hlen, Nat.sub_0_r, Nat.ltb_irrefl, drop_all.
  by rewrite search_WIKI_at_end.
Qed.

(** X14. Two wiki embeds on one line give one reference: the third group
    of the pattern runs to the last []]] of the line, so the raw span of
    the first embed takes in everything up to the end of the second, and
    the second embed has no reference of its own. *)
Theorem wiki_embeds_on_one_line_merge
    (s : PublishSettings) (nm1 ext1 between nm2 ext2 : jsstring) :
  ext1 ∈ extensions ->
  forallb notLineTerminator nm1 = true ->
  mentionsExtension nm1 = false ->
  forallb notLineTerminator (between ++ nm2 ++ ext2) = true ->
  let text := js "![[" ++ nm1 ++ FULLSTOP :: ext1 ++ js "]]" ++ between
              ++ js "![[" ++ nm2 ++ FULLSTOP :: ext2 ++ js "]]" in
  map (wikiImage s) (matchAll WIKI_REGEX text)
  = [ {| name := nm1 ++ FULLSTOP :: ext1;
         path := attachmentLocation s ++ js "/"
                 ++ (if endsWith (nm1 ++ FULLSTOP :: ext1) (js ".excalidraw")
                     then (nm1 ++ FULLSTOP :: ext1) ++ js ".png"
                     else nm1 ++ FULLSTOP :: ext1);
         fullPath := [];
         url := [];
         source := text |} ].
Proof.
  intros Hin Hnm Hment Hrest text.
  set (suffix := js "]]" ++ between ++ js "![[" ++ nm2 ++ FULLSTOP :: ext2).
  assert (Hsuffix : forallb notLineTerminator suffix = true).
  { subst suffix. rewrite !forallb_app in *. cbn [forallb].
    apply andb_true_iff in Hrest as [Hb Hrest].
    apply andb_true_iff in Hrest as [Hn He].
    rewrite Hb, Hn, He. reflexivity. }
  destruct (wiki_embed_matchAll nm1 ext1 suffix Hin Hnm Hsuffix Hment)
    as (caps & Hall & Hg).
  assert (Htext : js "![[" ++ nm1 ++ FULLSTOP :: ext1 ++ suffix ++ js "]]" = text).
  { subst suffix text.
    by repeat first [rewrite <- app_assoc | rewrite <- app_comm_cons]. }
  rewrite Htext in Hall, Hg. rewrite Hall. cbn [map].
  unfold wikiImage, group_str. rewrite Hg. reflexivity.
Qed.

Lemma wiki_embeds_on_one_line_merge_witness :
  map source
      (map (wikiImage (settings "assets" true false false false))
           (matchAll WIKI_REGEX (js "![[a.png]] and ![[b.png]]")))
  = [js "![[a.png]] and ![[b.png]]"].
Proof.
  exact (f_equal (map source)
           (wiki_embeds_on_one_line_merge (settings "assets" true false false false)
              (js "a") (js "png") (js " and ") (js "b") (js "png")
              ltac:(unfold extensions; repeat constructor) eq_refl eq_refl eq_refl)).
Defined.

(** X15. Every inline reference comes from a match of the form
    [![alt](stem.ext)] with [ext] one of the seven extensions: its raw span
    is that whole stretch, and its name and candidate path are both the
    decoded [stem.ext], not prefixed with the attachment folder. *)
Theorem inline_reference_shape
    (h : Host) (s : PublishSettings) (text : jsstring) (images : list Image)
    (image : Image) :
  getImageLists h s text = Ok images ->
  image ∈ drop (length (matchAll WIKI_REGEX text)) images ->
  exists alt stem ext,
    ext ∈ extensions
    /\ source image = js "![" ++ alt ++ js "](" ++ stem ++ FULLSTOP :: ext ++ js ")"
    /\ isRemote (stem ++ FULLSTOP :: ext) = false
    /\ decodeURI h (stem ++ FULLSTOP :: ext) = Some (name image)
    /\ path image = name image.
Proof.
  intros Hget Hin. unfold getImageLists in Hget.
  pose proof (mdImages_spec h (matchAll MD_REGEX text)) as Hspec.
  destruct (mdImages h (matchAll MD_REGEX text)) as [inline|e]; [|done].
  injection Hget as <-.
  rewrite drop_app_length' in Hin by (by rewrite length_map).
  assert (Hm : exists m, m ∈ List.filter isLocalMatch (matchAll MD_REGEX text)
                         /\ mdImageOf h m image).
  { clear -Hspec Hin. induction Hspec as [|m x ms xs Hmx _ IH].
    - by apply elem_of_nil in Hin.
    - apply elem_of_cons in Hin as [->|Hin].
      + exists m. split; [by left|done].
      + destruct (IH Hin) as (m' & Hm' & Hx). exists m'. split; [by right|done]. }
  destruct Hm as (m & Hm & Hsrc & Hdec & Hpath & _).
  apply list_elem_of_In, filter_In in Hm as [Hm Hloc].
  apply list_elem_of_In, md_match_shape in Hm as (alt & stem & ext & Hext & Hw & _ & Hg2).
  unfold isLocalMatch in Hloc. apply negb_true_iff in Hloc.
  unfold group_str in Hdec, Hloc. rewrite Hg2 in Hdec, Hloc. cbn in Hdec, Hloc.
  exists alt, stem, ext. by rewrite Hsrc, Hw.
Qed.

Lemma inline_reference_shape_witness :
  exists alt stem ext,
    ext ∈ extensions
    /\ source (MkImage (js "b.png") (js "b.png") [] [] (js "![a](b.png)"))
       = js "![" ++ alt ++ js "](" ++ stem ++ FULLSTOP :: ext ++ js ")"
    /\ isRemote (stem ++ FULLSTOP :: ext) = false
    /\ decodeURI (scenarioHost inlineThenWiki [] []) (stem ++ FULLSTOP :: ext)
       = Some (name (MkImage (js "b.png") (js "b.png") [] [] (js "![a](b.png)")))
    /\ path (MkImage (js "b.png") (js "b.png") [] [] (js "![a](b.png)"))
       = name (MkImage (js "b.png") (js "b.png") [] [] (js "![a](b.png)")).
Proof.
  apply (inline_reference_shape (scenarioHost inlineThenWiki [] [])
           (settings "assets" true false false false) inlineThenWiki
           [ MkImage (js "c.png") (js "assets/c.png") [] [] (js "![[c.png]]");
             MkImage (js "b.png") (js "b.png") [] [] (js "![a](b.png)") ]).
  - vm_compute. reflexivity.
  - vm_compute. left.
Defined.

(** ** The iterator of [matchAll] ends by itself *)

(** The bound on the number of iterations is never what ends the
    iteration: with any larger bound the matches are the same. *)
Lemma matchAll_from_fuel (r : regex) (n : nat) :
  forall (l : jsstring) (i f1 f2 : nat),
    length l <= n -> n < f1 -> n < f2 ->
    matchAll_from f1 r i l = matchAll_from f2 r i l.
Proof.
  induction n as [|n IH]; intros l i f1 f2 Hl H1 H2;
    (destruct f1 as [|f1]; [lia|]); (destruct f2 as [|f2]; [lia|]);
    cbn [matchAll_from];
    (destruct (search r i l) as [m|] eqn:Hs; [|done]);
    destruct (search_Some _ _ _ _ Hs) as (k & y & Hk & Hi & _ & Hw & _);
    f_equal.
  - assert (Hnext : length l < (if Nat.eqb (length (whole m)) 0
                                then S (index m + length (whole m))
                                else index m + length (whole m)) - i).
    { destruct (Nat.eqb (length (whole m)) 0) eqn:He.
      - lia.
      - apply Nat.eqb_neq in He. lia. }
    apply Nat.ltb_lt in Hnext. by rewrite Hnext.
  - destruct (length l <? _) eqn:Hstop; [done|].
    apply Nat.ltb_ge in Hstop.
    apply IH; [|lia|lia].
    rewrite length_drop.
    destruct (Nat.eqb (length (whole m)) 0) eqn:He.
    + lia.
    + apply Nat.eqb_neq in He. lia.
Qed.

(** ** The bound of [repeatMatcher] is never reached *)

Lemma ahead_refl (x : mstate) : ahead x x.
Proof. by split. Qed.

Lemma ahead_trans (x y z : mstate) : ahead x y -> ahead y z -> ahead x z.
Proof. unfold ahead. lia. Qed.

Lemma ahead_advance (x : mstate) (a : cu) (t : jsstring) :
  rest x = a :: t -> ahead x (advance x t).
Proof. unfold ahead, advance. cbn [endIndex rest]. intros ->. cbn [length]. lia. Qed.

Lemma repeatMatcher_fuel (r : regex) (gs : list nat) :
  (forall x c c', (forall y, ahead x y -> c y = c' y) ->
                  matcher r x c = matcher r x c') ->
  forall f1 f2 min max greedy x c c',
    min + length (rest x) < f1 -> min + length (rest x) < f2 ->
    (forall y, ahead x y -> c y = c' y) ->
    repeatMatcher f1 (matcher r) gs min max greedy x c
    = repeatMatcher f2 (matcher r) gs min max greedy x c'.
Proof.
  intros Hr. induction f1 as [|f1 IH]; intros f2 min max greedy x c c' H1 H2 Hc; [lia|].
  destruct f2 as [|f2]; [lia|]. cbn [repeatMatcher].
  assert (Hx : c x = c' x) by apply Hc, ahead_refl.
  assert (Hd : matcher r (clear_captures gs x)
                 (fun y => if Nat.eqb min 0 && Nat.eqb (endIndex y) (endIndex x)
                           then None
                           else repeatMatcher f1 (matcher r) gs (pred min)
                                  (option_map pred max) greedy y c)
               = matcher r (clear_captures gs x)
                 (fun y => if Nat.eqb min 0 && Nat.eqb (endIndex y) (endIndex x)
                           then None
                           else repeatMatcher f2 (matcher r) gs (pred min)
                                  (option_map pred max) greedy y c')).
  { apply Hr. intros y Hy. unfold ahead in Hy. cbn [clear_captures endIndex rest] in Hy.
    destruct (Nat.eqb min 0 && Nat.eqb (endIndex y) (endIndex x)) eqn:He; [done|].
    apply andb_false_iff in He.
    apply IH.
    - destruct He as [He|He]; apply Nat.eqb_neq in He; lia.
    - destruct He as [He|He]; apply Nat.eqb_neq in He; lia.
    - intros z Hz. apply Hc. unfold ahead in *. lia. }
  destruct max as [[|n]|]; [done| |]; rewrite Hd, Hx; done.
Qed.

(** The matcher asks its continuation only about states ahead. *)
Lemma matcher_ahead (r : regex) :
  forall x c c', (forall y, ahead x y -> c y = c' y) ->
                 matcher r x c = matcher r x c'.
Proof.
  induction r as [|ch| | | |a IHa b IHb|a IHa b IHb|i r IH|min max greedy r IH];
    intros x c c' Hc; cbn [matcher].
  - apply Hc, ahead_refl.
  - destruct (rest x) as [|a t] eqn:Hrest; [done|].
    destruct (cu_eqb a ch); [|done]. by apply Hc, (ahead_advance x a t).
  - destruct (rest x) as [|a t] eqn:Hrest; [done|].
    destruct (isLineTerminator a); [done|]. by apply Hc, (ahead_advance x a t).
  - destruct (rest x) as [|a t] eqn:Hrest; [done|].
    by apply Hc, (ahead_advance x a t).
  - destruct (Nat.eqb (endIndex x) 0); [|done]. apply Hc, ahead_refl.
  - apply IHa. intros y Hy. apply IHb. intros z Hz. apply Hc.
    by eapply ahead_trans.
  - rewrite (IHa x c c' Hc), (IHb x c c' Hc). done.
  - apply IH. intros y Hy. apply Hc. exact Hy.
  - apply repeatMatcher_fuel; [exact IH|lia|lia|exact Hc].
Qed.

(** With any larger bound a quantifier matches the same. *)
Lemma matcher_Repeat_fuel (min : nat) (max : option nat) (greedy : bool)
    (r : regex) (x : mstate) (c : cont) (fuel : nat) :
  min + length (rest x) < fuel ->
  matcher (Repeat min max greedy r) x c
  = repeatMatcher fuel (matcher r) (groups_of r) min max greedy x c.
Proof.
  intros Hfuel. cbn [matcher].
  apply repeatMatcher_fuel; [apply matcher_ahead|lia|lia|done].
Qed.

